(** * goutil: environment probes, the time wrapper and the README generator

    A shallow embedding of [envutil/info.go] (terminal colour probes and the
    [timex.TimeX] helpers that ship in the same source unit) and of
    [internal/gendoc/main.go] (the generator that collects exported function
    signatures and splices them into a README template).

    Go strings are byte strings and are modelled by [string]; [int] results
    that can be negative ([strings.Index]) are in [Z]; lengths are in [nat].
    Go maps are [gmap]s.  A panic is an explicit outcome. *)

From Stdlib Require Import ZArith Ascii Lia.
From stdpp Require Import base option list gmap strings.

Local Open Scope Z_scope.

(** ** Byte strings *)

Module Str.

(** [s[:n]] and [s[n:]] for an index already known to be in range. *)
Fixpoint take (n : nat) (s : string) : string :=
  match n, s with
  | S n', String c s' => String c (take n' s')
  | _, _ => ""
  end.

Fixpoint drop (n : nat) (s : string) : string :=
  match n, s with
  | S n', String _ s' => drop n' s'
  | _, _ => s
  end.

(** Concatenation of a list of chunks, in order. *)
Fixpoint cat (l : list string) : string :=
  match l with
  | [] => ""
  | s :: l' => s +:+ cat l'
  end.

(** All the bytes of a string are in a class. *)
Fixpoint all (p : ascii → bool) (s : string) : bool :=
  match s with
  | "" => true
  | String c s' => p c && all p s'
  end.

(** What is left of a string after its longest prefix in a class. *)
Fixpoint skip (p : ascii → bool) (s : string) : string :=
  match s with
  | "" => ""
  | String c s' => if p c then skip p s' else s
  end.

(** Membership of a byte in a cut set such as the second argument of
    [strings.TrimRight]. *)
Fixpoint mem (c : ascii) (set : string) : bool :=
  match set with
  | "" => false
  | String d set' => Ascii.eqb c d || mem c set'
  end.

End Str.

(** ** The functions of Go's [strings] package the sources call *)

Module strings.

(** [strings.HasPrefix(s, prefix)] *)
Fixpoint HasPrefix (s prefix : string) : bool :=
  match prefix, s with
  | "", _ => true
  | String a p', String b s' => Ascii.eqb a b && HasPrefix s' p'
  | String _ _, "" => false
  end.

(** [strings.HasSuffix(s, suffix)] is
    [len(s) >= len(suffix) && s[len(s)-len(suffix):] == suffix]. *)
Definition HasSuffix (s suffix : string) : bool :=
  (String.length suffix <=? String.length s)%nat
  && String.eqb (Str.drop (String.length s - String.length suffix) s) suffix.

(** [strings.Index(s, substr)]: byte index of the first occurrence, [-1]
    when there is none. *)
Fixpoint Index (s substr : string) : Z :=
  if HasPrefix s substr then 0
  else match s with
       | "" => -1
       | String _ s' => let i := Index s' substr in if i <? 0 then -1 else i + 1
       end.

(** [strings.IndexRune(s, r)] for a rune below [utf8.RuneSelf], which is
    [strings.IndexByte]. *)
Fixpoint IndexByte (s : string) (c : ascii) : Z :=
  match s with
  | "" => -1
  | String b s' =>
      if Ascii.eqb b c then 0
      else let i := IndexByte s' c in if i <? 0 then -1 else i + 1
  end.

(** The offsets in [s] at which [substr] occurs, in order. *)
Fixpoint occurrences (substr s : string) : list nat :=
  (if HasPrefix s substr then [0%nat] else [])
  ++ match s with
     | "" => []
     | String _ s' => S <$> occurrences substr s'
     end.

(** [strings.Contains(s, substr)] is [Index(s, substr) >= 0]. *)
Definition Contains (s substr : string) : bool := 0 <=? Index s substr.

(** [strings.Replace(s, old, new, 1)] for a non-empty [old]: the first
    occurrence of [old] is replaced, and [s] is returned as it is when
    there is none. *)
Definition Replace1 (s old new : string) : string :=
  let j := Index s old in
  if j <? 0 then s
  else Str.take (Z.to_nat j) s +:+ new
       +:+ Str.drop (Z.to_nat j + String.length old) s.

(** [strings.TrimRight(s, cutset)]: the trailing bytes of [s] that are in
    [cutset] are removed (the cut sets used here are ASCII). *)
Fixpoint TrimRight (s cutset : string) : string :=
  match s with
  | "" => ""
  | String c s' =>
      match TrimRight s' cutset with
      | "" => if Str.mem c cutset then "" else String c ""
      | t => String c t
      end
  end.

(** The slice expression [s[:i]]; it panics ([None]) when [i] is out of
    range. *)
Definition slice_to (s : string) (i : Z) : option string :=
  if (0 <=? i) && (i <=? Z.of_nat (String.length s))
  then Some (Str.take (Z.to_nat i) s) else None.

End strings.

(** ** envutil: colour support of the terminal *)

Module envutil.

(** The process environment; [os.Getenv] gives the empty string for a
    variable that is not set. *)
Definition Getenv (env : gmap string string) (key : string) : string :=
  default "" (env !! key).

Definition specialColorTerms : gmap string bool :=
  {[ "alacritty" := true ]}.

Section Probes.
Variable env : gmap string string.

Definition IsSupportTrueColor : bool :=
  strings.Contains (Getenv env "COLORTERM") "truecolor".

Definition IsSupport256Color : bool :=
  let supported := strings.Contains (Getenv env "TERM") "256color" in
  if negb supported then IsSupportTrueColor else supported.

Definition IsSupportColor : bool :=
  let envTerm := Getenv env "TERM" in
  if strings.Contains envTerm "xterm" then true
  else if bool_decide (is_Some (specialColorTerms !! envTerm)) then true
  else if String.eqb (Getenv env "ConEmuANSI") "ON" then true
  else if negb (String.eqb (Getenv env "ANSICON") "") then true
  else IsSupport256Color.
End Probes.

End envutil.


(** ** timex: the time wrapper

    [TimeX] embeds a [time.Time] and carries a layout.  Its helpers take a
    [*TimeX] and return a [*TimeX], so the objects live in a heap and a
    pointer is a location of it. *)

Module timex.

(** The 64-bit [int] and [time.Duration] wrap around. *)
Definition wrap64 (z : Z) : Z := (z + 2 ^ 63) mod 2 ^ 64 - 2 ^ 63.

(** The part of Go's [time] package the helpers call. *)
Class TimeAPI (T Zone : Type) : Type := {
  (** [t.Add(d)], [d] in nanoseconds *)
  Add : T → Z → T;
  (** [t.Date()]: year, month, day *)
  Date : T → Z * Z * Z;
  (** [t.Hour()] *)
  Hour : T → Z;
  (** [t.Location()] *)
  Location : T → Zone;
  (** [time.Date(year, month, day, hour, min, sec, nsec, loc)] *)
  mkDate : Z → Z → Z → Z → Z → Z → Z → Zone → T
}.

Definition OneMinSec : Z := 60.
Definition OneHourSec : Z := 3600.
Definition OneDaySec : Z := 86400.
(** [time.Second] and [time.Nanosecond], in nanoseconds *)
Definition Second : Z := 1000000000.
Definition Nanosecond : Z := 1.

Definition DefaultLayout : string := "2006-01-02 15:04:05".

Section Helpers.
Context {T Zone : Type} `{!TimeAPI T Zone}.

(** [type TimeX struct { time.Time; Layout string }] *)
Record TimeX : Type := {
  Time : T;
  Layout : string
}.

(** The allocated [TimeX] objects; a location that is not allocated stands
    for the nil pointer. *)
Local Abbreviation heap := (gmap positive TimeX).

(** [&TimeX{...}]: the object goes to a location that is not in use. *)
Definition alloc (v : TimeX) (h : heap) : positive * heap :=
  let p := fresh (dom h) in (p, <[p := v]> h).

(** [New(t)], which is [&TimeX{Time: t, Layout: DefaultLayout}] *)
Definition New (t : T) (h : heap) : positive * heap :=
  alloc {| Time := t; Layout := DefaultLayout |} h.

(** A method with receiver [t *TimeX] panics ([None]) on the nil pointer,
    and otherwise returns a pointer and the heap after the call. *)
Definition AddSeconds (t : positive) (seconds : Z) (h : heap)
    : option (positive * heap) :=
  v ← h !! t;
  Some (alloc {| Time := Add (Time v) (wrap64 (seconds * Second));
                 Layout := DefaultLayout |} h).

Definition Yesterday (t : positive) (h : heap) : option (positive * heap) :=
  AddSeconds t (- OneDaySec) h.

Definition DayAgo (t : positive) (day : Z) (h : heap)
    : option (positive * heap) :=
  AddSeconds t (wrap64 (wrap64 (- day) * OneDaySec)) h.

Definition AddDay (t : positive) (day : Z) (h : heap)
    : option (positive * heap) :=
  AddSeconds t (wrap64 (day * OneDaySec)) h.

Definition Tomorrow (t : positive) (h : heap) : option (positive * heap) :=
  AddSeconds t OneDaySec h.

Definition DayAfter (t : positive) (day : Z) (h : heap)
    : option (positive * heap) :=
  AddDay t day h.

Definition AddHour (t : positive) (hours : Z) (h : heap)
    : option (positive * heap) :=
  AddSeconds t (wrap64 (hours * OneHourSec)) h.

Definition AddMinutes (t : positive) (minutes : Z) (h : heap)
    : option (positive * heap) :=
  AddSeconds t (wrap64 (minutes * OneMinSec)) h.

Definition HourStart (t : positive) (h : heap) : option (positive * heap) :=
  v ← h !! t;
  let '(y, m, d) := Date (Time v) in
  let newTime := mkDate y m d (Hour (Time v)) 0 0 0 (Location (Time v)) in
  Some (New newTime h).

Definition HourEnd (t : positive) (h : heap) : option (positive * heap) :=
  v ← h !! t;
  let '(y, m, d) := Date (Time v) in
  let newTime := mkDate y m d (Hour (Time v)) 59 59 (Second - Nanosecond)
                        (Location (Time v)) in
  Some (New newTime h).

Definition DayStart (t : positive) (h : heap) : option (positive * heap) :=
  v ← h !! t;
  let '(y, m, d) := Date (Time v) in
  let newTime := mkDate y m d 0 0 0 0 (Location (Time v)) in
  Some (New newTime h).

Definition DayEnd (t : positive) (h : heap) : option (positive * heap) :=
  v ← h !! t;
  let '(y, m, d) := Date (Time v) in
  let newTime := mkDate y m d 23 59 59 (Second - Nanosecond)
                        (Location (Time v)) in
  Some (New newTime h).

Definition ChangeHMS (t : positive) (hour min sec : Z) (h : heap)
    : option (positive * heap) :=
  v ← h !! t;
  let '(y, m, d) := Date (Time v) in
  let newTime := mkDate y m d hour min sec (Second - Nanosecond)
                        (Location (Time v)) in
  Some (New newTime h).

(** The offsetting and boundary helpers, as calls. *)
Inductive helper : Type :=
| CallAddSeconds (seconds : Z)
| CallAddMinutes (minutes : Z)
| CallAddHour (hours : Z)
| CallAddDay (day : Z)
| CallDayAgo (day : Z)
| CallYesterday
| CallTomorrow
| CallDayAfter (day : Z)
| CallHourStart
| CallHourEnd
| CallDayStart
| CallDayEnd
| CallChangeHMS (hour min sec : Z).

Definition call (m : helper) (t : positive) (h : heap)
    : option (positive * heap) :=
  match m with
  | CallAddSeconds n => AddSeconds t n h
  | CallAddMinutes n => AddMinutes t n h
  | CallAddHour n => AddHour t n h
  | CallAddDay n => AddDay t n h
  | CallDayAgo n => DayAgo t n h
  | CallYesterday => Yesterday t h
  | CallTomorrow => Tomorrow t h
  | CallDayAfter n => DayAfter t n h
  | CallHourStart => HourStart t h
  | CallHourEnd => HourEnd t h
  | CallDayStart => DayStart t h
  | CallDayEnd => DayEnd t h
  | CallChangeHMS hh mm ss => ChangeHMS t hh mm ss h
  end.

End Helpers.

Arguments TimeX : clear implicits.
Abbreviation heap T := (gmap positive (TimeX T)).

(** A clock to run the helpers on: an instant is a count of nanoseconds
    since the Unix epoch together with the offset of its zone in seconds,
    and the calendar is the proleptic Gregorian one. *)
Definition daysFromCivil (y m d : Z) : Z :=
  let y' := y + (m - 1) / 12 in
  let m' := (m - 1) mod 12 + 1 in
  let y0 := if m' <=? 2 then y' - 1 else y' in
  let era := y0 / 400 in
  let yoe := y0 - era * 400 in
  let doy := (153 * (if m' <=? 2 then m' + 9 else m' - 3) + 2) / 5 + d - 1 in
  era * 146097 + (yoe * 365 + yoe / 4 - yoe / 100 + doy) - 719468.

Definition civilFromDays (z : Z) : Z * Z * Z :=
  let z0 := z + 719468 in
  let era := z0 / 146097 in
  let doe := z0 - era * 146097 in
  let yoe := (doe - doe / 1460 + doe / 36524 - doe / 146096) / 365 in
  let doy := doe - (365 * yoe + yoe / 4 - yoe / 100) in
  let mp := (5 * doy + 2) / 153 in
  let d := doy - (153 * mp + 2) / 5 + 1 in
  let m := if mp <? 10 then mp + 3 else mp - 9 in
  (yoe + era * 400 + (if m <=? 2 then 1 else 0), m, d).

#[global] Instance fixedZoneClock : TimeAPI (Z * Z) Z := {|
  Add t d := (t.1 + d, t.2);
  Date t := civilFromDays ((t.1 / Second + t.2) / 86400);
  Hour t := ((t.1 / Second + t.2) mod 86400) / 3600;
  Location t := t.2;
  mkDate y m d hh mm ss ns off :=
    (((daysFromCivil y m d * 86400 + hh * 3600 + mm * 60 + ss - off) * Second
      + ns), off)
|}.

(** A heap with one object, at 2023-11-14 23:13:20 +01:00. *)
Definition sampleHeap : heap (Z * Z) :=
  {[ 1%positive := {| Time := (1700000000 * Second + 5, 3600); Layout := "Jan 2" |} ]}.

End timex.

(** ** Go's [regexp] package, for the constructs of the generator's pattern

    [regexp] gives leftmost-first matches: the match starts as early as
    possible and, among the matches that start there, it is the one a
    backtracking search finds first, every repetition being greedy. *)

Module regexp.

Inductive regex : Type :=
| Eps
| Lit (c : ascii)
| Class (p : ascii → bool)
| Cat (r1 r2 : regex)
| Star (r : regex)
| Plus (r : regex).

(** The words of a pattern. *)
Inductive matches : regex → string → Prop :=
| matches_eps : matches Eps ""
| matches_lit c : matches (Lit c) (String c "")
| matches_class p c : p c = true → matches (Class p) (String c "")
| matches_cat r1 r2 s1 s2 :
    matches r1 s1 → matches r2 s2 → matches (Cat r1 r2) (s1 +:+ s2)
| matches_star_nil r : matches (Star r) ""
| matches_star_cons r s1 s2 :
    matches r s1 → matches (Star r) s2 → matches (Star r) (s1 +:+ s2)
| matches_plus r s1 s2 :
    matches r s1 → matches (Star r) s2 → matches (Plus r) (s1 +:+ s2).

Section Exec.
Context {A : Type}.

(** Greedy iteration of the matcher [m]: one more round is tried first, and
    a round that consumes nothing is not repeated.  [fuel] bounds the rounds
    by the length of the input. *)
Fixpoint star (m : string → (string → option A) → option A)
    (fuel : nat) (s : string) (k : string → option A) : option A :=
  match fuel with
  | O => k s
  | S fuel' =>
      match m s (λ s', if (String.length s' <? String.length s)%nat
                       then star m fuel' s' k else None) with
      | Some x => Some x
      | None => k s
      end
  end.

(** [exec r s k]: the first success, in priority order, of [k] on what is
    left of [s] after a word of [r]. *)
Fixpoint exec (r : regex) (s : string) (k : string → option A) : option A :=
  match r with
  | Eps => k s
  | Lit c =>
      match s with
      | String b s' => if Ascii.eqb b c then k s' else None
      | "" => None
      end
  | Class p =>
      match s with
      | String b s' => if p b then k s' else None
      | "" => None
      end
  | Cat r1 r2 => exec r1 s (λ s', exec r2 s' k)
  | Star r' => star (exec r') (String.length s) s k
  | Plus r' => exec r' s (λ s', star (exec r') (String.length s') s' k)
  end.
End Exec.

(** The match that starts at the head of [s], as what is left after it. *)
Definition matchHere (r : regex) (s : string) : option string := exec r s Some.

(** The leftmost match in [s]: the text before it, the match, the text
    after it. *)
Fixpoint search (r : regex) (s : string) : option (string * string * string) :=
  match matchHere r s with
  | Some rest =>
      Some ("", Str.take (String.length s - String.length rest) s, rest)
  | None =>
      match s with
      | "" => None
      | String c s' =>
          match search r s' with
          | Some (before, m, rest) => Some (String c before, m, rest)
          | None => None
          end
      end
  end.

(** The loop of [Regexp.FindAllString(s, -1)].  [afterMatch] says that
    the search position is the end of the previous match, where an empty
    match is not accepted; after an empty match the position moves on by one
    (one byte here: the generator's pattern has no empty match, see
    [sigRe_nonempty]). *)
Fixpoint allMatches (fuel : nat) (r : regex) (s : string) (afterMatch : bool)
    : list string :=
  match fuel with
  | O => []
  | S fuel' =>
      match search r s with
      | None => []
      | Some ("", "", rest) =>
          let tail := match rest with
                      | "" => []
                      | String _ rest' => allMatches fuel' r rest' false
                      end in
          if afterMatch then tail else "" :: tail
      | Some (_, m, rest) => m :: allMatches fuel' r rest true
      end
  end.

Definition FindAllString (r : regex) (s : string) : list string :=
  allMatches (S (String.length s)) r s false.

(** A word of the pattern starts at the head of [s]. *)
Definition matchable (r : regex) (s : string) : Prop :=
  ∃ w s', s = w +:+ s' ∧ matches r w.

(** A literal string as a pattern. *)
Fixpoint lits (s : string) : regex :=
  match s with
  | "" => Eps
  | String c s' => Cat (Lit c) (lits s')
  end.

Definition between (lo hi c : ascii) : bool :=
  (N_of_ascii lo <=? N_of_ascii c)%N && (N_of_ascii c <=? N_of_ascii hi)%N.

(** [[A-Z]] *)
Definition upper (c : ascii) : bool := between "A" "Z" c.

(** [\w], which is [[0-9A-Za-z_]] *)
Definition word (c : ascii) : bool :=
  between "0" "9" c || between "A" "Z" c || between "a" "z" c
  || Ascii.eqb c "_".

(** [.], any character but the line feed *)
Definition dot (c : ascii) : bool := negb (Ascii.eqb c "010").

End regexp.

(** ** The documentation generator *)

Module gendoc.
Import regexp.

(** [regexp.MustCompile(`func [A-Z]\w+\(.*\).*`)] *)
Definition sigRe : regex :=
  Cat (lits "func ")
 (Cat (Class upper)
 (Cat (Plus (Class word))
 (Cat (Lit "(")
 (Cat (Star (Class dot))
 (Cat (Lit ")")
      (Star (Class dot))))))).

(** The line feed, [\n] in the Go sources. *)
Definition nl : string := String "010" "".

(** The words of the pattern, spelled out: the keyword, a name made of an
    upper-case letter and one or more further word characters, and a
    parenthesis that is closed before the end of the line. *)
Definition signature_shape (m : string) : Prop :=
  ∃ u w name args tail,
    m = "func " +:+ String u (String w name) +:+ "(" +:+ args +:+ ")" +:+ tail
    ∧ upper u = true ∧ word w = true ∧ Str.all word name = true
    ∧ Str.all dot args = true ∧ Str.all dot tail = true.

(** The matches [FindAllString] is to return for the pattern, said without
    the matcher: each is a word of the pattern that runs to the end of its
    line, no word of the pattern starts before it in the text that the
    previous match left, and the rest is searched in the same way. *)
Inductive signature_lines : string → list string → Prop :=
| sl_none text :
    (∀ a b, text = a +:+ b → ¬ matchable sigRe b) →
    signature_lines text []
| sl_match before m rest ms :
    matches sigRe m →
    Str.skip dot rest = rest →
    (∀ a b, before = a +:+ b → b ≠ "" → ¬ matchable sigRe (b +:+ m +:+ rest)) →
    signature_lines rest ms →
    signature_lines (before +:+ m +:+ rest) (m :: ms).

Definition hidden : list string := ["netutil"; "numutil"; "internal"].

Definition nameMap : gmap string string :=
  list_to_map
    [ ("arr", "array/Slice"); ("str", "string"); ("sys", "system");
      ("math", "math/Number"); ("fs", "fileSystem"); ("fmt", "formatting");
      ("test", "testing"); ("dump", "dump"); ("structs", "struct");
      ("json", "JSON"); ("cli", "CLI"); ("env", "ENV"); ("std", "standard") ].

Record genOptsSt : Type := {
  lang : string;
  output : string;
  template : string;
  tplDir : string
}.

Definition partDocTplS : string := "part-%s-s%s.md".
Definition partDocTplE : string := "part-%s%s.md".

(** [fmt.Sprintf] for formats made of text and [%s] verbs with string
    operands.  An operand that is missing prints as [%!s(MISSING)]; every
    call of the generator passes as many operands as its format has verbs. *)
Fixpoint Sprintf (f : string) (a : list string) : string :=
  match f with
  | "" => ""
  | String "%" (String "s" f') =>
      match a with
      | x :: a' => x +:+ Sprintf f' a'
      | [] => "%!s(MISSING)" +:+ Sprintf f' []
      end
  | String c f' => String c (Sprintf f' a)
  end.

(** [fmt.Sprintln] on string operands: a space between operands and a line
    feed at the end. *)
Fixpoint Sprintln (a : list string) : string :=
  match a with
  | [] => nl
  | [x] => x +:+ nl
  | x :: a' => x +:+ " " +:+ Sprintln a'
  end.

(** Modelled from the spec: [arrutil.StringsHas(ss, val)], whose source is
    not part of the sources at hand, tells whether the name is in the
    hidden-package set. *)
Definition StringsHas (ss : list string) (val : string) : bool :=
  bool_decide (val ∈ ss).

(** Modelled from the spec: [strutil.UpperFirst], whose source is not part
    of the sources at hand; the heading shows the display name with its
    first letter upper-cased. *)
Definition UpperFirst (s : string) : string :=
  match s with
  | String c s' =>
      if between "a" "z" c
      then String (ascii_of_N (N_of_ascii c - 32)) s' else s
  | "" => ""
  end.

(** *** State and effects

    The generator writes to one [bytes.Buffer], fills the package-level map
    [pkgNames], and reads files.  A run is a state transformer over these
    that can panic; the state reached at the panic is kept. *)

Inductive fsCall : Type :=
| MustRead (path : string)
| ReadExist (path : string).

Record world : Type := {
  buf : string;
  pkgNames : gmap string string;
  calls : list fsCall
}.

Inductive outcome (A : Type) : Type :=
| Done (a : A)
| Panic.
Arguments Done {A} a.
Arguments Panic {A}.

Definition M (A : Type) : Type := world → outcome A * world.

Definition ret {A} (a : A) : M A := λ w, (Done a, w).

Definition bind {A B} (m : M A) (k : A → M B) : M B :=
  λ w, match m w with
       | (Done a, w') => k a w'
       | (Panic, w') => (Panic, w')
       end.

Definition panic {A} : M A := λ w, (Panic, w).

#[global] Instance M_ret : MRet M := @ret.
#[global] Instance M_bind : MBind M := λ A B k m, bind m k.

(** [for _, x := range l { b = body(b, x) }] *)
Fixpoint forEach {A B} (body : B → A → M B) (l : list A) (b : B) : M B :=
  match l with
  | [] => ret b
  | x :: l' => b' ← body b x; forEach body l' b'
  end.

Definition bufWrite (s : string) : M unit :=
  λ w, (Done tt, {| buf := buf w +:+ s; pkgNames := pkgNames w; calls := calls w |}).

Definition bufReset : M unit :=
  λ w, (Done tt, {| buf := ""; pkgNames := pkgNames w; calls := calls w |}).

Definition bufString : M string := λ w, (Done (buf w), w).

Definition setPkgName (dir pkgPath : string) : M unit :=
  λ w, (Done tt, {| buf := buf w; pkgNames := <[dir := pkgPath]> (pkgNames w);
                    calls := calls w |}).

Definition logCall (c : fsCall) : M unit :=
  λ w, (Done tt, {| buf := buf w; pkgNames := pkgNames w; calls := calls w ++ [c] |}).

Definition bufWritef (f : string) (a : list string) : M unit :=
  bufWrite (Sprintf f a).

Definition bufWriteln (a : list string) : M unit :=
  bufWrite (Sprintln a).

(** The three locals of [collectPgkFunc] that live across iterations. *)
Record locals : Type := {
  name : string;
  dirname : string;
  pkgFuncs : gmap string (list string)
}.

Section Generator.
(** The files on disk: the content of every path that can be read. *)
Variable fs : string → option string.
(** The options bound to the command-line flags. *)
Variable genOpts : genOptsSt.
(** [path.Join] of Go's library, on two elements. *)
Variable pathJoin : string → string → string.

(** Modelled from the spec: [fsutil.MustReadFile], whose source is not part
    of the sources at hand; a required file that cannot be read is fatal. *)
Definition MustReadFile (filePath : string) : M string :=
  logCall (MustRead filePath) ;;
  match fs filePath with
  | Some body => ret body
  | None => panic
  end.

(** Modelled from the spec: [fsutil.ReadExistFile], whose source is not part
    of the sources at hand; an optional file that is absent gives no
    content. *)
Definition ReadExistFile (filePath : string) : M string :=
  logCall (ReadExist filePath) ;;
  ret (default "" (fs filePath)).

Definition doWriteDoc2buf (filename : string) : M bool :=
  let partFile := tplDir genOpts +:+ "/" +:+ filename in
  partBody ← ReadExistFile partFile;
  if (0 <? String.length partBody)%nat
  then (bufWrite (Sprintln [partBody]) ;; ret true)
  else ret false.

Definition bufWriteDoc (partNameTpl pkgName : string) : M unit :=
  let lang := if negb (String.eqb (lang genOpts) "en")
              then "." +:+ lang genOpts else "" in
  let filename := Sprintf partNameTpl [pkgName; lang] in
  ok ← doWriteDoc2buf filename;
  if negb ok then
    let filename := Sprintf partNameTpl [pkgName; ""] in
    (doWriteDoc2buf filename ;; ret tt)
  else ret tt.

(** The body of the loop over the globbed files; [continue] leaves the
    locals as they are. *)
Definition collectFile (basePkg : string) (l : locals) (filename : string)
    : M locals :=
  if strings.HasSuffix filename "_test.go" then ret l
  else if strings.HasSuffix filename "_windows.go" then ret l
  else
    let idx := strings.IndexByte filename "/" in
    match strings.slice_to filename idx with
    | None => panic
    | Some dir =>
        if StringsHas hidden dir then ret l
        else
          let pkgPath := basePkg +:+ "/" +:+ dir in
          setPkgName dir pkgPath ;;
          l' ← match pkgFuncs l !! pkgPath with
               | Some ss =>
                   ret {| name := name l; dirname := dirname l;
                          pkgFuncs := <[pkgPath := ss ++ ["added"]]> (pkgFuncs l) |}
               | None =>
                   (if (0 <? size (pkgFuncs l))%nat
                    then (bufWriteln ["```"] ;; bufWriteDoc partDocTplE (dirname l))
                    else ret tt) ;;
                   let name0 :=
                     if strings.HasSuffix dir "util"
                     then Str.take (String.length dir - 4) dir else dir in
                   let name1 := default name0 (nameMap !! name0) in
                   bufWriteln [nl +:+ "###"; UpperFirst name1] ;;
                   bufWritef (nl +:+ "> Package `%s`" +:+ nl +:+ nl) [pkgPath] ;;
                   bufWriteDoc partDocTplS name1 ;;
                   bufWriteln ["```go"] ;;
                   ret {| name := name1; dirname := dir;
                          pkgFuncs := <[pkgPath := ["xx"]]> (pkgFuncs l) |}
               end;
          text ← MustReadFile filename;
          let lines := FindAllString sigRe text in
          (if (0 <? length lines)%nat
           then (bufWriteln ["// source at"; filename] ;;
                 forEach (λ _ line, bufWriteln [strings.TrimRight line "{ "])
                         lines tt)
           else ret tt) ;;
          ret l'
    end.

(** The end of [collectPgkFunc], after the loop: the section that is open
    is closed. *)
Definition flush (l : locals) : M unit :=
  if (0 <? size (pkgFuncs l))%nat
  then (bufWriteln ["```"] ;; bufWriteDoc partDocTplE (dirname l))
  else ret tt.

(** [collectPgkFunc(ms, basePkg)]; the result is the content of the buffer
    it returns. *)
Definition collectPgkFunc (ms : list string) (basePkg : string) : M string :=
  bufReset ;;
  l ← forEach (collectFile basePkg) ms
        {| name := ""; dirname := ""; pkgFuncs := ∅ |};
  flush l ;;
  bufString.

Definition tplFilename : string :=
  if String.eqb (lang genOpts) "en" then "README.md.tpl"
  else Sprintf "README.%s.md.tpl" [lang genOpts].

Definition tplFilepath (givePath : string) : string :=
  if negb (String.eqb givePath "") then pathJoin (tplDir genOpts) givePath
  else pathJoin (tplDir genOpts) tplFilename.

(** What [main] writes to its output, the last step of the run. *)
Definition render (tplBody body : string) : string :=
  if (0 <? String.length tplBody)%nat
  then strings.Replace1 tplBody "{{pgkFuncs}}" body
  else body.

(** [main], from the list [ms] that [filepath.Glob] returned to the text
    written to the output: the read of the template, the collection and
    the text to write.  The glob, the opening of the output and the write
    are in [gendocProgram.mainAll]. *)
Definition main (ms : list string) : M string :=
  tplBody ← (if negb (String.eqb (tplDir genOpts) "")
             then MustReadFile (tplFilepath "") else ret "");
  body ← collectPgkFunc ms "github.com/gookit/goutil";
  ret (render tplBody body).

End Generator.

(** *** What a run is to produce

    The text of the buffer said as a function of the files, to compare the
    run with. *)

(** The immediate subdirectory of a globbed path: what is before its first
    slash. *)
Definition dirOf (filename : string) : option string :=
  strings.slice_to filename (strings.IndexByte filename "/").

(** The paths the collector passes over. *)
Definition skipped (filename : string) : bool :=
  strings.HasSuffix filename "_test.go"
  || strings.HasSuffix filename "_windows.go"
  || match dirOf filename with
     | Some dir => StringsHas hidden dir
     | None => false
     end.

Definition candidate (filename : string) : bool := negb (skipped filename).

(** The files that [MustReadFile] was called on, in order. *)
Fixpoint mustReads (cs : list fsCall) : list string :=
  match cs with
  | [] => []
  | MustRead f :: cs' => f :: mustReads cs'
  | ReadExist _ :: cs' => mustReads cs'
  end.

(** [m] runs without a panic from every state, returns [a], appends [txt]
    to the buffer and performs the file-system calls [cs]. *)
Definition emits {A} (m : M A) (a : A) (txt : string) (cs : list fsCall) : Prop :=
  ∀ w, ∃ w', m w = (Done a, w')
    ∧ buf w' = buf w +:+ txt ∧ calls w' = calls w ++ cs.

(** Whatever the state and whether or not [m] panics, the files it reads
    with [MustReadFile] are all in [S]. *)
Definition readsOnly {A} (S : string → Prop) (m : M A) : Prop :=
  ∀ w, ∃ cs, calls (m w).2 = calls w ++ cs ∧ Forall S (mustReads cs).

(** The package sections of a list of candidate files: the files that go on
    with the section that is open (its packages are [seen]), and then the
    sections that are opened, each with the files it holds. *)
Fixpoint sections (seen : list string) (files : list string)
    : list string * list (string * list string) :=
  match files with
  | [] => ([], [])
  | f :: files' =>
      let dir := default "" (dirOf f) in
      if bool_decide (dir ∈ seen)
      then let '(run, secs) := sections seen files' in (f :: run, secs)
      else let '(run, secs) := sections (dir :: seen) files' in
           ([], (dir, f :: run) :: secs)
  end.

(** The locals of [collectPgkFunc] when the packages [seen] have a section,
    the last of them first. *)
Definition tracks (basePkg : string) (seen : list string) (l : locals) : Prop :=
  (∀ k, is_Some (pkgFuncs l !! k) ↔ ∃ d, d ∈ seen ∧ k = basePkg +:+ "/" +:+ d)
  ∧ dirname l = hd "" seen.

Section Spec.
Variable fs : string → option string.
Variable genOpts : genOptsSt.
Variable basePkg : string.

(** A globbed path the run can go through: it is passed over, or it has a
    subdirectory and can be read. *)
Definition loadable (filename : string) : bool :=
  skipped filename
  || (bool_decide (is_Some (dirOf filename))
      && bool_decide (is_Some (fs filename))).

(** The lines a file adds to the code block of its section. *)
Definition fileBlock (filename : string) : string :=
  let lines := FindAllString sigRe (default "" (fs filename)) in
  if (0 <? length lines)%nat
  then Sprintln ["// source at"; filename]
       +:+ Str.cat (map (λ line, Sprintln [strings.TrimRight line "{ "]) lines)
  else "".

Definition langSuffix : string :=
  if negb (String.eqb (lang genOpts) "en") then "." +:+ lang genOpts else "".

Definition fragmentPath (partNameTpl pkgName suffix : string) : string :=
  tplDir genOpts +:+ "/" +:+ Sprintf partNameTpl [pkgName; suffix].

(** The content of an optional file, empty when it is absent. *)
Definition optional (path : string) : string := default "" (fs path).

(** The text a fragment adds: the file of the configured language when it
    has content, else the file of the default language when it has. *)
Definition fragment (partNameTpl pkgName : string) : string :=
  let first := optional (fragmentPath partNameTpl pkgName langSuffix) in
  let second := optional (fragmentPath partNameTpl pkgName "") in
  if (0 <? String.length first)%nat then Sprintln [first]
  else if (0 <? String.length second)%nat then Sprintln [second]
  else "".

Definition fragmentCalls (partNameTpl pkgName : string) : list fsCall :=
  let first := optional (fragmentPath partNameTpl pkgName langSuffix) in
  if (0 <? String.length first)%nat
  then [ReadExist (fragmentPath partNameTpl pkgName langSuffix)]
  else [ReadExist (fragmentPath partNameTpl pkgName langSuffix);
        ReadExist (fragmentPath partNameTpl pkgName "")].

Definition displayName (dir : string) : string :=
  let name0 := if strings.HasSuffix dir "util"
               then Str.take (String.length dir - 4) dir else dir in
  default name0 (nameMap !! name0).

(** The heading line and the package-path lines of a section. *)
Definition sectionTitle (dir : string) : string :=
  Sprintln [nl +:+ "###"; UpperFirst (displayName dir)]
  +:+ Sprintf (nl +:+ "> Package `%s`" +:+ nl +:+ nl) [basePkg +:+ "/" +:+ dir].

Definition fenceOpen : string := Sprintln ["```go"].
Definition fenceClose : string := Sprintln ["```"].

Definition sectionHead (dir : string) : string :=
  sectionTitle dir +:+ fragment partDocTplS (displayName dir) +:+ fenceOpen.

Definition sectionFoot (dir : string) : string :=
  fenceClose +:+ fragment partDocTplE dir.

(** A section in the output: title, start fragment, opening fence, the
    lines of its files, closing fence, end fragment. *)
Definition renderSection (sec : string * list string) : string :=
  sectionHead sec.1 +:+ Str.cat (map fileBlock sec.2) +:+ sectionFoot sec.1.

(** What closes the section that is open, if one is. *)
Definition footOf (seen : list string) : string :=
  match seen with
  | [] => ""
  | dir :: _ => sectionFoot dir
  end.

(** The text a run adds from a state where [seen] have a section. *)
Definition outputFrom (seen : list string) (ms : list string) : string :=
  let '(run, secs) := sections seen (List.filter candidate ms) in
  Str.cat (map fileBlock run) +:+ footOf seen
  +:+ Str.cat (map renderSection secs).

End Spec.

(** Following the words of the specification: a function declaration whose
    name starts with an upper-case letter, from the keyword through the
    parameter list and what follows it on the line. *)
Definition exported_declaration (m : string) : Prop :=
  ∃ u name args tail,
    m = "func " +:+ String u name +:+ "(" +:+ args +:+ ")" +:+ tail
    ∧ upper u = true ∧ Str.all word name = true
    ∧ Str.all dot args = true ∧ Str.all dot tail = true.

(** The heading lines of an output, counted by their mark in the text. *)
Definition headerCount (out : string) : nat :=
  length (strings.occurrences (nl +:+ "### ") out).

(** The state after the read of a required file is logged. *)
Definition logged (c : fsCall) (w : world) : world :=
  {| buf := buf w; pkgNames := pkgNames w; calls := calls w ++ [c] |}.

(** *** A small tree of files to run the generator on *)

Definition unlines (l : list string) : string :=
  Str.cat (map (λ x, x +:+ nl) l).

Definition demoTree : gmap string string :=
  list_to_map
    [ ("arrutil/arrutil.go",
       unlines ["package arrutil"; "";
                "func Reverse(ss []string) {"; "func reverse(ss []string) {"]);
      ("arrutil/check.go",
       unlines ["func StringsHas(ss []string, val string) bool {"]);
      ("arrutil/format.go",
       unlines ["func ToString(arr []any) string { return s }"]);
      ("dump/dump.go",
       unlines ["func P(vs ...any) {"; "func Print(vs ...any) {"]);
      ("dump/dumper.go",
       unlines ["func NewDumper(out io.Writer, skip int) *Dumper {"]);
      ("tpl/README.zh-CN.md.tpl",
       unlines ["# GoUtil"; "{{pgkFuncs}}"; "## License"]);
      ("tpl/part-arrutil.md", "#### ArrUtil Usage");
      ("tpl/part-dump-s.zh-CN.md", "Print variables.") ].

Definition demoFs (path : string) : option string := demoTree !! path.

Definition demoOpts : genOptsSt :=
  {| lang := "zh-CN"; output := "stdout"; template := ""; tplDir := "tpl" |}.

Definition demoJoin (dir file : string) : string := dir +:+ "/" +:+ file.

Definition demoWorld : world := {| buf := ""; pkgNames := ∅; calls := [] |}.

(** Files in glob order, and files whose package keys are A, A, B, B, A. *)
Definition demoGlob : list string :=
  ["arrutil/arrutil.go"; "arrutil/arrutil_test.go"; "arrutil/check.go";
   "arrutil/format.go"; "dump/dump.go"; "dump/dump_windows.go";
   "dump/dumper.go"; "internal/comfunc.go"].

Definition demoABBA : list string :=
  ["arrutil/arrutil.go"; "arrutil/check.go"; "dump/dump.go";
   "dump/dumper.go"; "arrutil/format.go"].

(** The body that [main] splices into the template of the tree. *)
Definition demoBody : string :=
  match (collectPgkFunc demoFs demoOpts demoGlob "github.com/gookit/goutil"
           (logged (MustRead "tpl/README.zh-CN.md.tpl") demoWorld)).1 with
  | Done body => body
  | Panic => ""
  end.

End gendoc.

(** ** envutil: the operating system and WSL *)

Module envutilSys.

Section OS.
(** [runtime.GOOS] *)
Variable GOOS : string.

Definition IsWin : bool := String.eqb GOOS "windows".
Definition IsWindows : bool := String.eqb GOOS "windows".
Definition IsMac : bool := String.eqb GOOS "darwin".
Definition IsLinux : bool := String.eqb GOOS "linux".
End OS.

(** The package variables [detectedWSL] and [detectedWSLContents]. *)
Record wslState : Type := {
  detectedWSL : bool;
  detectedWSLContents : string
}.

(** The state when the program starts. *)
Definition wslInit : wslState :=
  {| detectedWSL := false; detectedWSLContents := "" |}.

Fixpoint zeros (n : nat) : string :=
  match n with
  | O => ""
  | S n' => String "000" (zeros n')
  end.

(** [b := make([]byte, n); f.Read(b); string(b)]: the first bytes of [b] are
    those of the file, as many as fit, and the others stay zero. *)
Definition readInto (n : nat) (content : string) : string :=
  Str.take n content +:+ zeros (n - String.length (Str.take n content)).

(** [IsWSL()]; [procVersion] is the content of [/proc/version] at the time
    of the call, [None] when it cannot be opened. *)
Definition IsWSL (procVersion : option string) (s : wslState)
    : bool * wslState :=
  let s' :=
    if negb (detectedWSL s)
    then {| detectedWSL := true;
            detectedWSLContents :=
              match procVersion with
              | Some content => readInto 1024 content
              | None => detectedWSLContents s
              end |}
    else s in
  (strings.Contains (detectedWSLContents s') "Microsoft", s').

End envutilSys.

(** ** timex: formatting and differences *)

Module timexFormat.
Import timex.

Section Methods.
Context {T Zone : Type} `{!TimeAPI T Zone}.
(** [t.Format(layout)] and [t.Sub(u)] of [time.Time], the latter in
    nanoseconds, and [time.Unix(sec, nsec)]. *)
Variable FormatTime : T → string → string.
Variable Sub : T → T → Z.
Variable Unix : Z → Z → T.

(** [FromUnix(sec)] *)
Definition FromUnix (sec : Z) (h : heap T) : positive * heap T :=
  New (Unix sec 0) h.

(** [(t *TimeX).Format(layout)]; [None] is the panic on the nil pointer. *)
Definition Format (t : positive) (layout : string) (h : heap T)
    : option string :=
  v ← h !! t;
  let layout := if String.eqb (Layout v) "" then DefaultLayout else layout in
  Some (FormatTime (Time v) layout).

(** [(t *TimeX).Datetime()] *)
Definition Datetime (t : positive) (h : heap T) : option string :=
  v ← h !! t;
  Format t (Layout v) h.

(** [(t TimeX).SubUnix(u)] and [(t TimeX).DiffSec(u)], on a copy of the
    value: [int(t.Sub(u) / time.Second)], an integer division that
    truncates toward zero. *)
Definition SubUnix (t : TimeX T) (u : T) : Z := Z.quot (Sub (Time t) u) Second.

Definition DiffSec (t : TimeX T) (u : T) : Z := Z.quot (Sub (Time t) u) Second.

(** [(t TimeX).Diff(u)] *)
Definition Diff (t : TimeX T) (u : T) : Z := Sub (Time t) u.

End Methods.

End timexFormat.

(** ** The generator: what the packages and their names come to *)

Module gendocNames.
Import gendoc.

(** The subdirectories of the candidate files, in order. *)
Definition candidateDirs (ms : list string) : list string :=
  omap dirOf (List.filter candidate ms).

(** A list without its repetitions: every element where it first occurs. *)
Fixpoint firstOccurrences (l : list string) : list string :=
  match l with
  | [] => []
  | d :: l' =>
      d :: List.filter (λ x, negb (String.eqb x d)) (firstOccurrences l')
  end.

(** The entry that a file adds to [pkgNames]. *)
Definition noteName (basePkg : string) (names : gmap string string)
    (filename : string) : gmap string string :=
  if candidate filename
  then match dirOf filename with
       | Some dir => <[dir := basePkg +:+ "/" +:+ dir]> names
       | None => names
       end
  else names.

(** [m] never returns: it panics from every state. *)
Definition alwaysPanics {A} (m : M A) : Prop := ∀ w, (m w).1 = Panic.

(** When [m] returns, [pkgNames] has been changed by [g]. *)
Definition namesTo {A} (m : M A)
    (g : gmap string string → gmap string string) : Prop :=
  ∀ w, (m w).1 ≠ Panic → pkgNames (m w).2 = g (pkgNames w).

(** [m] leaves [pkgNames] as it is, also when it panics. *)
Definition keepsNames {A} (m : M A) : Prop :=
  ∀ w, pkgNames (m w).2 = pkgNames w.

Section Trace.
Variable fs : string → option string.
Variable genOpts : genOptsSt.

(** The lookups made when the section that is open is closed. *)
Definition closeCalls (seen : list string) : list fsCall :=
  match seen with
  | [] => []
  | dir :: _ => fragmentCalls fs genOpts partDocTplE dir
  end.

(** The file-system calls of a section: the lookups of its start fragment,
    under its display name, the reads of its files, and the lookups of its
    end fragment, under its directory. *)
Definition sectionCalls (sec : string * list string) : list fsCall :=
  fragmentCalls fs genOpts partDocTplS (displayName sec.1)
  ++ (MustRead <$> sec.2)
  ++ fragmentCalls fs genOpts partDocTplE sec.1.

(** The calls of a run from a state where [seen] have a section. *)
Definition callsFrom (seen : list string) (ms : list string) : list fsCall :=
  let '(run, secs) := sections seen (List.filter candidate ms) in
  (MustRead <$> run) ++ closeCalls seen ++ mjoin (sectionCalls <$> secs).

End Trace.

End gendocNames.

(** ** The generator: [main] from its first statement *)

Module gendocProgram.
Import gendoc.

(** What [main] does to the system besides the reads of [fsutil]: the
    glob, the opening of the output file, the write of the result and the
    deferred close of the output file. *)
Inductive sysEvent : Type :=
| GlobFiles (pattern : string)
| OpenOutput (path : string)
| WriteOutput (text : string)
| CloseOutput (path : string).

(** The system [main] runs on, besides the files it reads: the result of
    [filepath.Glob("./*/*.go")], [None] for an error; whether
    [os.OpenFile(path, os.O_CREATE|os.O_WRONLY, perm)] succeeds; whether the
    write to the output succeeds. *)
Record sysEnv : Type := {
  globResult : option (list string);
  canOpen : string → bool;
  canWrite : bool
}.

Section Program.
Variable fs : string → option string.
Variable genOpts : genOptsSt.
Variable pathJoin : string → string → string.
Variable env : sysEnv.

(** [main()] after the flags are parsed: the glob, the choice and the
    opening of the output, then [gendoc.main] (the read of the template,
    the collection and the text to write), the write, and the deferred
    [Close] of an output file, which runs also when [main] panics after
    the file was opened.  [goutil.PanicIfErr], whose source is not part of
    the sources at hand, panics on an error.  The events are in the order
    in which they happen; the reads of [fsutil], logged in the state, come
    after the opening and before the write. *)
Definition mainAll (w : world) : outcome unit * world * list sysEvent :=
  match globResult env with
  | None => (Panic, w, [GlobFiles "./*/*.go"])
  | Some ms =>
      let toFile := negb (String.eqb (output genOpts) "stdout") in
      if toFile && negb (canOpen env (output genOpts))
      then (Panic, w, [GlobFiles "./*/*.go"; OpenOutput (output genOpts)])
      else
        let opened := if toFile then [OpenOutput (output genOpts)] else [] in
        let closed := if toFile then [CloseOutput (output genOpts)] else [] in
        match main fs genOpts pathJoin ms w with
        | (Done text, w') =>
            (if canWrite env then Done tt else Panic, w',
             GlobFiles "./*/*.go" :: opened ++ [WriteOutput text] ++ closed)
        | (Panic, w') =>
            (Panic, w', GlobFiles "./*/*.go" :: opened ++ closed)
        end
  end.

End Program.

End gendocProgram.

(** * Properties *)

(** ** Byte strings *)

Module StrFacts.
Import Str.

Lemma app_cons (c : ascii) (s t : string) :
  String c s +:+ t = String c (s +:+ t).
Proof. reflexivity. Qed.

Lemma app_nil_r (s : string) : s +:+ "" = s.
Proof. induction s as [|c s IH]; [done|]. by rewrite app_cons, IH. Qed.

Lemma app_assoc (s t u : string) : (s +:+ t) +:+ u = s +:+ t +:+ u.
Proof. induction s as [|c s IH]; [done|]. by rewrite !app_cons, IH. Qed.

Lemma length_app (s t : string) :
  String.length (s +:+ t) = (String.length s + String.length t)%nat.
Proof. induction s as [|c s IH]; [done|]. rewrite app_cons. simpl. lia. Qed.

Lemma app_eq_nil (s t : string) : s +:+ t = "" → s = "" ∧ t = "".
Proof. destruct s; [done|]. by rewrite app_cons. Qed.

Lemma app_inv_head (s t u : string) : s +:+ t = s +:+ u → t = u.
Proof.
  induction s as [|c s IH]; [done|].
  rewrite !app_cons. intros [= H]. auto.
Qed.

Lemma take_drop (n : nat) (s : string) : take n s +:+ drop n s = s.
Proof.
  revert s; induction n as [|n IH]; intros [|c s]; simpl; try done.
  by rewrite app_cons, IH.
Qed.

Lemma take_app_length (s t : string) : take (String.length s) (s +:+ t) = s.
Proof.
  induction s as [|c s IH]; [by destruct t|].
  rewrite app_cons. simpl. by rewrite IH.
Qed.

Lemma drop_app_length (s t : string) : drop (String.length s) (s +:+ t) = t.
Proof.
  induction s as [|c s IH]; [done|].
  rewrite app_cons. simpl. by rewrite IH.
Qed.

Lemma drop_drop (n m : nat) (s : string) : drop n (drop m s) = drop (m + n) s.
Proof.
  revert s; induction m as [|m IH]; intros s; [done|].
  destruct s as [|c s]; simpl; [by destruct n|]. apply IH.
Qed.

Lemma app_inv_tail (s t u : string) : s +:+ u = t +:+ u → s = t.
Proof.
  revert t; induction s as [|c s IH]; intros [|d t] H.
  - done.
  - apply (f_equal String.length) in H. rewrite !length_app in H.
    simpl in H. lia.
  - apply (f_equal String.length) in H. rewrite !length_app in H.
    simpl in H. lia.
  - rewrite !app_cons in H. injection H as -> H. f_equal. auto.
Qed.

(** Two ways to cut one string overlap. *)
Lemma app_eq_app (a b c d : string) :
  a +:+ b = c +:+ d →
  ∃ e, (a = c +:+ e ∧ d = e +:+ b) ∨ (c = a +:+ e ∧ b = e +:+ d).
Proof.
  revert c; induction a as [|x a IH]; intros c H.
  - exists c. right. done.
  - destruct c as [|y c].
    + exists (String x a). left. done.
    + rewrite !app_cons in H. injection H as -> H.
      destruct (IH _ H) as [e [[-> ->]|[-> ->]]]; exists e; [left|right]; done.
Qed.

End StrFacts.

(** ** Go's [strings] package *)

Module stringsFacts.
Import Str StrFacts strings.

Lemma HasPrefix_app (p r : string) : HasPrefix (p +:+ r) p = true.
Proof.
  induction p as [|c p IH]; [by destruct r|].
  rewrite app_cons. simpl. by rewrite Ascii.eqb_refl, IH.
Qed.

Lemma HasPrefix_inv (s p : string) :
  HasPrefix s p = true → s = p +:+ drop (String.length p) s.
Proof.
  revert s; induction p as [|c p IH]; intros s H; [done|].
  destruct s as [|b s]; [done|]. simpl in H.
  apply andb_prop in H as [Hc Hp]. apply Ascii.eqb_eq in Hc as ->.
  rewrite app_cons. simpl. f_equal. by apply IH.
Qed.

Lemma HasPrefix_spec (s p : string) :
  HasPrefix s p = true ↔ ∃ r, s = p +:+ r.
Proof.
  split.
  - intros H. eexists. by apply HasPrefix_inv.
  - intros [r ->]. apply HasPrefix_app.
Qed.

Lemma HasSuffix_app (p suffix : string) : HasSuffix (p +:+ suffix) suffix = true.
Proof.
  unfold HasSuffix. rewrite length_app.
  replace (String.length p + String.length suffix - String.length suffix)%nat
    with (String.length p) by lia.
  rewrite drop_app_length, String.eqb_refl, andb_true_r.
  apply Nat.leb_le. lia.
Qed.

Lemma HasSuffix_spec (s suffix : string) :
  HasSuffix s suffix = true ↔ ∃ p, s = p +:+ suffix.
Proof.
  split.
  - unfold HasSuffix. intros [_ H]%andb_prop. apply String.eqb_eq in H.
    exists (take (String.length s - String.length suffix) s).
    rewrite <- H at 2. by rewrite take_drop.
  - intros [p ->]. apply HasSuffix_app.
Qed.

Lemma Index_nil (substr : string) :
  Index "" substr = if HasPrefix "" substr then 0 else -1.
Proof. reflexivity. Qed.

Lemma Index_cons (c : ascii) (s substr : string) :
  Index (String c s) substr =
  if HasPrefix (String c s) substr then 0
  else if Index s substr <? 0 then -1 else Index s substr + 1.
Proof. reflexivity. Qed.

Lemma occurrences_nil (substr : string) :
  occurrences substr "" = if HasPrefix "" substr then [0%nat] else [].
Proof. unfold occurrences. by rewrite (right_id_L [] (++)). Qed.

Lemma occurrences_cons (c : ascii) (s substr : string) :
  occurrences substr (String c s)
  = (if HasPrefix (String c s) substr then [0%nat] else [])
    ++ (S <$> occurrences substr s).
Proof. reflexivity. Qed.

(** [Index] is the first of the occurrences. *)
Lemma Index_occurrences (s substr : string) :
  Index s substr = match occurrences substr s with
                   | [] => -1
                   | i :: _ => Z.of_nat i
                   end.
Proof.
  induction s as [|c s IH].
  - rewrite Index_nil, occurrences_nil. by destruct (HasPrefix "" substr).
  - rewrite Index_cons, occurrences_cons, IH.
    destruct (HasPrefix (String c s) substr); [done|].
    destruct (occurrences substr s) as [|i l]; [done|]. simpl.
    destruct (Z.ltb_spec (Z.of_nat i) 0); lia.
Qed.

Lemma occurrences_here (pre substr post : string) :
  String.length pre ∈ occurrences substr (pre +:+ substr +:+ post).
Proof.
  induction pre as [|c pre IH].
  - change ("" +:+ substr +:+ post) with (substr +:+ post).
    destruct (substr +:+ post) as [|b r] eqn:E.
    + apply app_eq_nil in E as [-> _]. left.
    + rewrite occurrences_cons, <- E, HasPrefix_app. left.
  - rewrite app_cons, occurrences_cons. apply elem_of_app. right.
    change (String.length (String c pre)) with (S (String.length pre)).
    by apply list_elem_of_fmap_2.
Qed.

(** Replacing a substring that occurs once. *)
Lemma Replace1_once (pre old post new : string) :
  length (occurrences old (pre +:+ old +:+ post)) = 1%nat →
  Replace1 (pre +:+ old +:+ post) old new = pre +:+ new +:+ post.
Proof.
  intros Hone. pose proof (occurrences_here pre old post) as Hin.
  unfold Replace1. rewrite Index_occurrences.
  destruct (occurrences old (pre +:+ old +:+ post)) as [|i [|j l]]; try done.
  apply list_elem_of_singleton in Hin as <-.
  destruct (Z.ltb_spec (Z.of_nat (String.length pre)) 0); [lia|].
  rewrite Nat2Z.id, take_app_length, <- drop_drop, drop_app_length.
  by rewrite drop_app_length.
Qed.

Lemma IndexByte_ge (s : string) (c : ascii) : -1 ≤ IndexByte s c.
Proof.
  induction s as [|b s IH]; simpl; [lia|].
  destruct (Ascii.eqb b c); [lia|].
  destruct (Z.ltb_spec (IndexByte s c) 0); lia.
Qed.

(** Where [IndexByte] finds the byte, it is there and not before. *)
Lemma IndexByte_found (s : string) (c : ascii) :
  0 ≤ IndexByte s c →
  s = take (Z.to_nat (IndexByte s c)) s
      +:+ String c (drop (S (Z.to_nat (IndexByte s c))) s)
  ∧ IndexByte (take (Z.to_nat (IndexByte s c)) s) c = -1.
Proof.
  induction s as [|b s IH]; simpl; [lia|].
  destruct (Ascii.eqb b c) eqn:E.
  - apply Ascii.eqb_eq in E as ->. done.
  - destruct (Z.ltb_spec (IndexByte s c) 0) as [|Hi]; [lia|]. intros _.
    replace (Z.to_nat (IndexByte s c + 1)) with (S (Z.to_nat (IndexByte s c))) by lia.
    destruct (IH Hi) as [Hs Hn]. simpl. rewrite E, Hn. split; [|done].
    rewrite app_cons. f_equal. done.
Qed.

Lemma IndexByte_first (d r : string) (c : ascii) :
  IndexByte d c = -1 →
  IndexByte (d +:+ String c r) c = Z.of_nat (String.length d).
Proof.
  induction d as [|b d IH].
  - intros _. change ("" +:+ String c r) with (String c r). simpl.
    by rewrite Ascii.eqb_refl.
  - rewrite app_cons. simpl. destruct (Ascii.eqb b c); [lia|].
    destruct (Z.ltb_spec (IndexByte d c) 0) as [Hd|]; [|lia]. intros _.
    rewrite IH by (pose proof (IndexByte_ge d c); lia).
    destruct (Z.ltb_spec (Z.of_nat (String.length d)) 0); lia.
Qed.

(** What [TrimRight] leaves and what it removes. *)
Lemma TrimRight_spec (s cutset : string) :
  ∃ junk, s = TrimRight s cutset +:+ junk
    ∧ all (λ c, mem c cutset) junk = true
    ∧ ∀ t c, TrimRight s cutset = t +:+ String c "" → mem c cutset = false.
Proof.
  induction s as [|b s (junk & Hs & Hj & Hl)]; simpl.
  - exists "". split; [done|]. split; [done|]. intros [|??] c; done.
  - destruct (TrimRight s cutset) as [|d t'] eqn:E.
    + change ("" +:+ junk) with junk in Hs. subst junk.
      destruct (mem b cutset) eqn:Hb.
      * exists (String b s). split; [done|]. split.
        -- simpl. by rewrite Hb.
        -- intros [|??] c; done.
      * exists s. split; [done|]. split; [done|].
        intros [|x t] c; [by intros [= ->]|].
        rewrite app_cons. intros [= _ Ht]. by destruct t.
    + exists junk. split; [by rewrite app_cons, <- Hs|]. split; [done|].
      intros [|x t] c; [done|]. rewrite app_cons. intros [= _ Ht]. eauto.
Qed.

End stringsFacts.

(** ** envutil *)

Module envutilFacts.
Import envutil.

(** C8. Colour tiers are monotone: in every environment, true-colour
    support implies 256-colour support, and 256-colour support implies basic
    colour support. *)
Theorem color_tier_monotone (env : gmap string string) :
  (IsSupportTrueColor env = true → IsSupport256Color env = true)
  ∧ (IsSupport256Color env = true → IsSupportColor env = true).
Proof.
  split.
  - intros H. unfold IsSupport256Color.
    destruct (strings.Contains (Getenv env "TERM") "256color"); simpl; auto.
  - intros H. unfold IsSupportColor.
    destruct (strings.Contains (Getenv env "TERM") "xterm"); [done|].
    case_bool_decide; [done|].
    destruct (String.eqb (Getenv env "ConEmuANSI") "ON"); [done|].
    destruct (negb (String.eqb (Getenv env "ANSICON") "")); [done|].
    exact H.
Qed.

Lemma color_tier_monotone_witness :
  IsSupport256Color {[ "COLORTERM" := "24bit,truecolor" ]} = true
  ∧ IsSupportColor {[ "COLORTERM" := "24bit,truecolor" ]} = true.
Proof.
  destruct (color_tier_monotone {[ "COLORTERM" := "24bit,truecolor" ]})
    as [H256 Hbasic].
  assert (IsSupportTrueColor {[ "COLORTERM" := "24bit,truecolor" ]} = true)
    as Htrue by (by vm_compute).
  split; [exact (H256 Htrue) | exact (Hbasic (H256 Htrue))].
Defined.

End envutilFacts.

(** ** timex *)

Module timexFacts.
Import timex.

Section Frame.
Context {T Zone : Type} `{!TimeAPI T Zone}.

Lemma alloc_fresh (v : TimeX T) (h : heap T) :
  h !! (alloc v h).1 = None ∧ (alloc v h).2 = <[(alloc v h).1 := v]> h.
Proof.
  unfold alloc. simpl. split; [|done].
  apply not_elem_of_dom, is_fresh.
Qed.

Lemma alloc_frame (v : TimeX T) (h : heap T) (r : positive) (x : TimeX T) :
  h !! r = Some x → (alloc v h).2 !! r = Some x.
Proof.
  intros Hr. destruct (alloc_fresh v h) as [Hq ->].
  rewrite lookup_insert_ne; [done|]. intros <-. congruence.
Qed.

(** What it is for a call to return a new object and touch no other. *)
Definition returns_new (h : heap T) (res : option (positive * heap T)) : Prop :=
  ∃ q h', res = Some (q, h')
    ∧ h !! q = None
    ∧ is_Some (h' !! q)
    ∧ ∀ r x, h !! r = Some x → h' !! r = Some x.

Lemma alloc_returns_new (v : TimeX T) (h : heap T) :
  returns_new h (Some (alloc v h)).
Proof.
  exists (alloc v h).1, (alloc v h).2. split; [by destruct (alloc v h)|].
  destruct (alloc_fresh v h) as [Hq Hh]. split; [done|]. split.
  - rewrite Hh, lookup_insert_eq. eauto.
  - intros r x. apply alloc_frame.
Qed.

Lemma AddSeconds_returns_new (t : positive) (n : Z) (v : TimeX T) (h : heap T) :
  h !! t = Some v → returns_new h (AddSeconds t n h).
Proof.
  intros Ht. unfold AddSeconds. rewrite Ht. simpl. apply alloc_returns_new.
Qed.

(** C9. The offsetting and boundary helpers do not mutate: called on a
    receiver [t] that points to a [TimeX] value [v], each of them returns a
    pointer to a newly allocated object, and the receiver still holds [v],
    both its time and its layout, as does every other object. *)
Theorem helpers_do_not_mutate (m : helper) (t : positive) (v : TimeX T)
    (h : heap T) :
  h !! t = Some v →
  ∃ q h', call m t h = Some (q, h')
    ∧ h !! q = None
    ∧ is_Some (h' !! q)
    ∧ h' !! t = Some v
    ∧ ∀ r x, h !! r = Some x → h' !! r = Some x.
Proof.
  intros Ht.
  assert (returns_new h (call m t h)) as (q & h' & Hc & Hq & Hn & Hf).
  { destruct m; simpl;
      unfold Yesterday, DayAgo, AddDay, Tomorrow, DayAfter, AddDay, AddHour,
        AddMinutes, HourStart, HourEnd, DayStart, DayEnd, ChangeHMS, New;
      try (by eapply AddSeconds_returns_new);
      rewrite Ht; simpl; destruct (Date (Time v)) as [[y mo] d];
      apply alloc_returns_new. }
  exists q, h'. eauto 10.
Qed.

End Frame.

Lemma helpers_do_not_mutate_witness :
  ∃ q h', call CallDayStart 1%positive sampleHeap = Some (q, h')
    ∧ sampleHeap !! q = None
    ∧ is_Some (h' !! q)
    ∧ h' !! 1%positive
      = Some {| Time := (1700000000 * Second + 5, 3600); Layout := "Jan 2" |}
    ∧ ∀ r x, sampleHeap !! r = Some x → h' !! r = Some x.
Proof.
  apply (helpers_do_not_mutate CallDayStart 1%positive). reflexivity.
Defined.

End timexFacts.

(** ** The pattern matcher *)

Module regexpFacts.
Import Str StrFacts regexp.

Lemma all_app (p : ascii → bool) (s t : string) :
  all p (s +:+ t) = all p s && all p t.
Proof.
  induction s as [|c s IH]; [done|].
  rewrite app_cons. simpl. by rewrite IH, andb_assoc.
Qed.

Lemma matches_star_class (p : ascii → bool) (m : string) :
  matches (Star (Class p)) m ↔ all p m = true.
Proof.
  split.
  - intros H. remember (Star (Class p)) as r eqn:Er.
    induction H as [| | | | |r s1 s2 H1 _ H2 IH|]; try discriminate; [done|].
    injection Er as ->. rewrite all_app, IH by done.
    inversion H1 as [| |? ? Hc| | | |]; subst. simpl. by rewrite Hc.
  - induction m as [|c m IH]; simpl; [constructor|].
    intros [Hc Hm]%andb_prop.
    change (String c m) with (String c "" +:+ m).
    apply matches_star_cons; [by constructor | auto].
Qed.

Lemma matches_lits (s m : string) : matches (lits s) m ↔ m = s.
Proof.
  revert m; induction s as [|c s IH]; intros m; simpl.
  - split; [by inversion 1 | intros ->; constructor].
  - split.
    + inversion 1 as [| | |? ? s1 s2 H1 H2| | |]; subst.
      inversion H1; subst. apply IH in H2 as ->. done.
    + intros ->. change (String c s) with (String c "" +:+ s).
      constructor; [constructor | by apply IH].
Qed.

Section Sound.
Context {A : Type}.

Definition sound_at (r : regex)
    (m : string → (string → option A) → option A) : Prop :=
  ∀ s k x, m s k = Some x →
    ∃ w s', s = w +:+ s' ∧ matches r w ∧ k s' = Some x.

Lemma star_sound (r : regex) m :
  sound_at r m → ∀ fuel, sound_at (Star r) (λ s k, star m fuel s k).
Proof.
  intros Hm fuel. induction fuel as [|fuel IH]; intros s k x; simpl.
  - intros Hk. exists "", s. split; [done|]. split; [constructor | done].
  - destruct (m s _) as [y|] eqn:E.
    + intros [= ->]. apply Hm in E as (w1 & s1 & -> & Hw1 & Hk1).
      destruct (_ <? _)%nat; [|done].
      apply IH in Hk1 as (w2 & s2 & -> & Hw2 & Hk2).
      exists (w1 +:+ w2), s2. rewrite app_assoc.
      split; [done|]. split; [by constructor | done].
    + intros Hk. exists "", s. split; [done|]. split; [constructor | done].
Qed.

(** A success of the matcher is a success of the continuation after a word
    of the pattern. *)
Lemma exec_sound (r : regex) : sound_at r (exec r).
Proof.
  induction r as [|c|p|r1 IH1 r2 IH2|r IH|r IH]; intros s k x; simpl.
  - intros Hk. exists "", s. split; [done|]. split; [constructor | done].
  - destruct s as [|b s]; [done|].
    destruct (Ascii.eqb b c) eqn:E; [|done]. apply Ascii.eqb_eq in E as ->.
    intros Hk. exists (String c ""), s. split; [done|]. split; [constructor | done].
  - destruct s as [|b s]; [done|].
    destruct (p b) eqn:E; [|done].
    intros Hk. exists (String b ""), s. split; [done|]. split; [by constructor | done].
  - intros H. apply IH1 in H as (w1 & s1 & -> & Hw1 & H).
    apply IH2 in H as (w2 & s2 & -> & Hw2 & H).
    exists (w1 +:+ w2), s2. rewrite app_assoc.
    split; [done|]. split; [by constructor | done].
  - apply (star_sound r _ IH).
  - intros H. apply IH in H as (w1 & s1 & -> & Hw1 & H).
    apply (star_sound r _ IH) in H as (w2 & s2 & -> & Hw2 & H).
    exists (w1 +:+ w2), s2. rewrite app_assoc.
    split; [done|]. split; [by constructor | done].
Qed.

Definition complete_at (r : regex)
    (m : string → (string → option A) → option A) : Prop :=
  ∀ w, matches r w → ∀ s' k, is_Some (k s') → is_Some (m (w +:+ s') k).

Lemma star_complete (r : regex) m :
  complete_at r m →
  ∀ w, matches (Star r) w → ∀ fuel s' k,
    (String.length w ≤ fuel)%nat → is_Some (k s') →
    is_Some (star m fuel (w +:+ s') k).
Proof.
  intros Hm w Hw. remember (Star r) as r' eqn:Er.
  induction Hw as [| | | |r0|r0 s1 s2 H1 _ H2 IH|]; try discriminate.
  - intros fuel s' k _ Hk. destruct fuel as [|fuel]; simpl; [done|].
    match goal with |- is_Some (match ?e with _ => _ end) =>
      destruct e; [eauto | done] end.
  - injection Er as ->. intros fuel s' k Hf Hk.
    destruct s1 as [|c s1]; [by apply IH|].
    rewrite length_app in Hf. simpl in Hf.
    destruct fuel as [|fuel]; [lia|]. simpl.
    match goal with |- is_Some (match ?e with _ => _ end) =>
      assert (is_Some e) as [y ->]; [|eauto] end.
    rewrite app_assoc. apply Hm; [done|]. cbv beta.
    rewrite !length_app.
    destruct (Nat.ltb_spec (String.length s2 + String.length s')
      (S (String.length s1 + String.length s2 + String.length s'))); [|lia].
    apply IH; [done | lia | done].
Qed.

(** Where a word of the pattern is followed by a success of the
    continuation, the matcher succeeds. *)
Lemma exec_complete (r : regex) : complete_at r (exec r).
Proof.
  induction r as [|c|p|r1 IH1 r2 IH2|r IH|r IH]; intros w Hw s' k Hk;
    inversion Hw; subst; simpl.
  - done.
  - by rewrite Ascii.eqb_refl.
  - by rewrite H0.
  - rewrite app_assoc. apply IH1; [done|]. by apply IH2.
  - change ("" +:+ s') with s'. destruct (String.length s'); simpl; [done|].
    match goal with |- is_Some (match ?e with _ => _ end) =>
      destruct e; [eauto | done] end.
  - apply (star_complete r _ IH); [by constructor | | done].
    rewrite !length_app. lia.
  - rewrite app_assoc. apply IH; [done|].
    apply (star_complete r _ IH); [done | | done].
    rewrite length_app. lia.
Qed.
End Sound.

Lemma matchHere_Some (r : regex) (s rest : string) :
  matchHere r s = Some rest → ∃ w, s = w +:+ rest ∧ matches r w.
Proof.
  intros H. apply exec_sound in H as (w & s' & -> & Hw & [= ->]). eauto.
Qed.

Lemma matchHere_None (r : regex) (s : string) :
  matchHere r s = None → ¬ matchable r s.
Proof.
  intros H (w & s' & -> & Hw).
  destruct (exec_complete r w Hw s' Some) as [x Hx]; [eauto|].
  unfold matchHere in H. congruence.
Qed.

Lemma search_Some (r : regex) (s before m rest : string) :
  search r s = Some (before, m, rest) →
  s = before +:+ m +:+ rest
  ∧ matches r m
  ∧ matchHere r (m +:+ rest) = Some rest
  ∧ ∀ a b, before = a +:+ b → b ≠ "" → ¬ matchable r (b +:+ m +:+ rest).
Proof.
  revert before; induction s as [|c s IH]; intros before; simpl.
  - destruct (matchHere r "") as [rest0|] eqn:E; [|done].
    intros [= <- <- ->].
    destruct (matchHere_Some _ _ _ E) as (w & Hs & Hw).
    symmetry in Hs. apply app_eq_nil in Hs as [-> ->].
    repeat split; try done. intros a b Hab Hb.
    symmetry in Hab. by apply app_eq_nil in Hab as [_ ->].
  - destruct (matchHere r (String c s)) as [rest0|] eqn:E.
    + intros [= <- <- ->].
      destruct (matchHere_Some _ _ _ E) as (w & Hs & Hw).
      assert (take (S (String.length s) - String.length rest) (String c s) = w) as ->.
      { change (S (String.length s)) with (String.length (String c s)).
        rewrite Hs, length_app.
        replace (String.length w + String.length rest - String.length rest)%nat
          with (String.length w) by lia.
        apply take_app_length. }
      rewrite <- Hs. repeat split; try done. intros a b Hab Hb.
      symmetry in Hab. by apply app_eq_nil in Hab as [_ ->].
    + destruct (search r s) as [[[before' m'] rest']|] eqn:Es; [|done].
      intros [= <- <- <-].
      destruct (IH _ eq_refl) as (Hs & Hm & Hh & Hl).
      rewrite app_cons, <- Hs. repeat split; try done.
      intros [|a0 a] b Hab Hb.
      * change ("" +:+ b) with b in Hab. subst b.
        rewrite app_cons, <- Hs. by apply matchHere_None.
      * rewrite app_cons in Hab. injection Hab as -> Hab. by eapply Hl.
Qed.

Lemma search_None (r : regex) (s : string) :
  search r s = None → ∀ a b, s = a +:+ b → ¬ matchable r b.
Proof.
  induction s as [|c s IH]; simpl.
  - destruct (matchHere r "") eqn:E; [done|]. intros _ a b Hab.
    symmetry in Hab. apply app_eq_nil in Hab as [_ ->].
    by apply matchHere_None.
  - destruct (matchHere r (String c s)) eqn:E; [done|].
    destruct (search r s) as [[[? ?] ?]|] eqn:Es; [done|]. intros _.
    intros [|a0 a] b Hab.
    + change ("" +:+ b) with b in Hab. subst b. by apply matchHere_None.
    + rewrite app_cons in Hab. injection Hab as -> Hab. by eapply IH.
Qed.

Lemma exec_Star {A} (r : regex) (s : string) (k : string → option A) :
  exec (Star r) s k = star (exec r) (String.length s) s k.
Proof. reflexivity. Qed.

(** A greedy class repetition that nothing follows takes the longest run. *)
Lemma star_class_total (p : ascii → bool) (fuel : nat) (s : string) :
  (String.length s ≤ fuel)%nat →
  star (exec (Class p)) fuel s Some = Some (skip p s).
Proof.
  revert s; induction fuel as [|fuel IH]; intros s Hf.
  - destruct s; [done | simpl in Hf; lia].
  - destruct s as [|c s]; [done|]. simpl. simpl in Hf.
    destruct (p c); [|done].
    destruct (Nat.ltb_spec (String.length s) (S (String.length s))); [|lia].
    rewrite IH by lia. done.
Qed.

Lemma skip_idem (p : ascii → bool) (s : string) : skip p (skip p s) = skip p s.
Proof.
  induction s as [|c s IH]; [done|]. simpl.
  destruct (p c) eqn:E; [done|]. simpl. by rewrite E.
Qed.

Lemma skip_all (p : ascii → bool) (w s : string) :
  all p w = true → skip p (w +:+ s) = skip p s.
Proof.
  induction w as [|c w IH]; [done|]. rewrite app_cons. simpl.
  intros [Hc Hw]%andb_prop. rewrite Hc. auto.
Qed.

(** What a success of [Cat r1 r2] leaves is what a success of [r2]
    leaves. *)
Lemma exec_cat_tail {A} (r1 r2 : regex) (s : string) (k : string → option A)
    (x : A) :
  exec (Cat r1 r2) s k = Some x → ∃ s', exec r2 s' k = Some x.
Proof.
  simpl. intros H. apply exec_sound in H as (w & s' & _ & _ & H). eauto.
Qed.

Lemma matches_plus_class (p : ascii → bool) (m : string) :
  matches (Plus (Class p)) m ↔ ∃ c m', m = String c m' ∧ p c = true ∧ all p m' = true.
Proof.
  split.
  - inversion 1 as [| | | | | |? s1 s2 H1 H2]; subst.
    inversion H1 as [| |? c Hc| | | |]; subst.
    exists c, s2. by rewrite <- matches_star_class.
  - intros (c & m' & -> & Hc & Hm).
    change (String c m') with (String c "" +:+ m').
    constructor; [by constructor | by apply matches_star_class].
Qed.

Lemma matches_cat_inv (r1 r2 : regex) (m : string) :
  matches (Cat r1 r2) m ↔ ∃ s1 s2, m = s1 +:+ s2 ∧ matches r1 s1 ∧ matches r2 s2.
Proof.
  split.
  - inversion 1; subst. eauto.
  - intros (s1 & s2 & -> & H1 & H2). by constructor.
Qed.

Lemma matches_lit_inv (c : ascii) (m : string) : matches (Lit c) m ↔ m = String c "".
Proof. split; [by inversion 1 | intros ->; constructor]. Qed.

Lemma matches_class_inv (p : ascii → bool) (m : string) :
  matches (Class p) m ↔ ∃ c, m = String c "" ∧ p c = true.
Proof.
  split.
  - inversion 1; subst. eauto.
  - intros (c & -> & Hc). by constructor.
Qed.

End regexpFacts.

(** ** The generator: signatures *)

Module gendocSignatures.
Import Str StrFacts regexp regexpFacts gendoc.

Lemma sigRe_matches (m : string) : matches sigRe m ↔ signature_shape m.
Proof.
  unfold sigRe, signature_shape. split.
  - intros H.
    apply matches_cat_inv in H as (s1 & m1 & -> & H1 & H). apply matches_lits in H1 as ->.
    apply matches_cat_inv in H as (s2 & m2 & -> & H2 & H).
    apply matches_class_inv in H2 as (u & -> & Hu).
    apply matches_cat_inv in H as (s3 & m3 & -> & H3 & H).
    apply matches_plus_class in H3 as (w & name & -> & Hw & Hname).
    apply matches_cat_inv in H as (s4 & m4 & -> & H4 & H). apply matches_lit_inv in H4 as ->.
    apply matches_cat_inv in H as (args & m5 & -> & H5 & H). apply matches_star_class in H5.
    apply matches_cat_inv in H as (s6 & tail & -> & H6 & H). apply matches_lit_inv in H6 as ->.
    apply matches_star_class in H.
    exists u, w, name, args, tail. by repeat split.
  - intros (u & w & name & args & tail & -> & Hu & Hw & Hname & Hargs & Htail).
    apply matches_cat_inv. exists "func ", (String u (String w name) +:+ "(" +:+ args +:+ ")" +:+ tail).
    split; [done|]. split; [by apply matches_lits|].
    apply matches_cat_inv. exists (String u ""), (String w name +:+ "(" +:+ args +:+ ")" +:+ tail).
    split; [done|]. split; [by constructor|].
    apply matches_cat_inv. exists (String w name), ("(" +:+ args +:+ ")" +:+ tail).
    split; [done|]. split; [apply matches_plus_class; eauto|].
    apply matches_cat_inv. exists "(", (args +:+ ")" +:+ tail).
    split; [done|]. split; [constructor|].
    apply matches_cat_inv. exists args, (")" +:+ tail).
    split; [done|]. split; [by apply matches_star_class|].
    apply matches_cat_inv. exists ")", tail.
    split; [done|]. split; [constructor | by apply matches_star_class].
Qed.

(** The pattern has no empty match. *)
Lemma sigRe_nonempty (m : string) : matches sigRe m → m ≠ "".
Proof. intros (?&?&?&?&?& -> &_)%sigRe_matches. done. Qed.

(** A match of the pattern runs to the end of its line. *)
Lemma sigRe_to_eol (s rest : string) :
  matchHere sigRe s = Some rest → skip dot rest = rest.
Proof.
  unfold matchHere, sigRe. intros H.
  do 6 apply exec_cat_tail in H as [? H].
  rewrite exec_Star, star_class_total in H by done.
  injection H as <-. apply skip_idem.
Qed.

Lemma allMatches_spec (fuel : nat) (s : string) (b : bool) :
  (String.length s < fuel)%nat →
  signature_lines s (allMatches fuel sigRe s b).
Proof.
  revert s b; induction fuel as [|fuel IH]; intros s b Hf; [lia|]. simpl.
  destruct (search sigRe s) as [[[before m] rest]|] eqn:E.
  - apply search_Some in E as (-> & Hm & Hh & Hl).
    pose proof (sigRe_nonempty _ Hm) as Hne.
    rewrite !length_app in Hf.
    assert (signature_lines (before +:+ m +:+ rest)
              (m :: allMatches fuel sigRe rest true)) as Hgoal.
    { constructor; [done | by eapply sigRe_to_eol | done |].
      apply IH. destruct m; [done|]. simpl in Hf. lia. }
    destruct before, m; done.
  - constructor. by apply search_None.
Qed.

(** [FindAllString] returns the leftmost matches of the pattern, one after
    the other, and misses none. *)
Lemma FindAllString_spec (text : string) :
  signature_lines text (FindAllString sigRe text).
Proof. apply allMatches_spec. lia. Qed.

Lemma all_impl (p q : ascii → bool) (s : string) :
  (∀ c, p c = true → q c = true) → all p s = true → all q s = true.
Proof.
  intros Hpq. induction s as [|c s IH]; [done|]. simpl.
  intros [Hc Hs]%andb_prop. by rewrite (Hpq c Hc), IH.
Qed.

Lemma word_dot (c : ascii) : word c = true → dot c = true.
Proof. destruct c as [[] [] [] [] [] [] [] []]; by vm_compute. Qed.

Lemma upper_dot (c : ascii) : upper c = true → dot c = true.
Proof. destruct c as [[] [] [] [] [] [] [] []]; by vm_compute. Qed.

(** A word of the pattern has no line feed. *)
Lemma sigRe_one_line (m : string) : matches sigRe m → all dot m = true.
Proof.
  intros (u & w & name & args & tail & -> & Hu & Hw & Hn & Ha & Ht)%sigRe_matches.
  rewrite !all_app. cbn [all].
  rewrite (upper_dot u Hu), (word_dot w Hw), (all_impl word dot name word_dot Hn), Ha, Ht.
  done.
Qed.

(** The text fixes the list of its signature lines. *)
Lemma signature_lines_unique (text : string) (l1 l2 : list string) :
  signature_lines text l1 → signature_lines text l2 → l1 = l2.
Proof.
  intros H1. revert l2.
  induction H1 as [text Hno|before m rest ms Hm Hr Hl _ IH]; intros l2 H2.
  - inversion H2 as [|before m rest ms Hm Hr Hl Hrec Et]; [done|]. subst.
    exfalso. apply (Hno before (m +:+ rest) eq_refl). by exists m, rest.
  - inversion H2 as [text Hno|before' m' rest' ms' Hm' Hr' Hl' Hrec Et]; subst.
    + exfalso. apply (Hno before (m +:+ rest) eq_refl). by exists m, rest.
    + assert (before' = before ∧ m' +:+ rest' = m +:+ rest) as [-> Hmr].
      { destruct (app_eq_app _ _ _ _ Et) as [e [[-> He]|[-> He]]].
        - destruct e as [|c e]; [by rewrite app_nil_r|]. exfalso.
          apply (Hl' before (String c e) eq_refl); [done|].
          rewrite <- He. by exists m, rest.
        - destruct e as [|c e]; [by rewrite app_nil_r|]. exfalso.
          apply (Hl before' (String c e) eq_refl); [done|].
          rewrite <- He. by exists m', rest'. }
      assert (rest' = rest) as ->.
      { rewrite <- Hr, <- Hr'.
        rewrite <- (skip_all dot m' rest') by by apply sigRe_one_line.
        rewrite <- (skip_all dot m rest) by by apply sigRe_one_line.
        by rewrite Hmr. }
      apply app_inv_tail in Hmr as ->. f_equal. by apply IH.
Qed.

(** For every file text the matches that the collector records are fixed
    by the text alone: [FindAllString] returns
    [l] exactly when [l] lists, in order, the leftmost substrings that are
    words of the pattern (keyword, upper-case letter, one or more further
    word characters, parenthesised operands) and run to the end of their
    line. *)
Lemma FindAllString_iff (text : string) (l : list string) :
  signature_lines text l ↔ l = FindAllString sigRe text.
Proof.
  split.
  - intros H. eapply signature_lines_unique; [done | apply FindAllString_spec].
  - intros ->. apply FindAllString_spec.
Qed.

Example FindAllString_sample :
  FindAllString sigRe
    (unlines ["package x"; "func Foo(a int) string {"; "func bar(a int) {";
              "  func F(a int) {"; "// see func Grab(x) (y, z) { return }"])
  = ["func Foo(a int) string {"; "func Grab(x) (y, z) { return }"].
Proof. by vm_compute. Qed.

Example TrimRight_sample :
  strings.TrimRight "func Foo(a int) string { " "{ " = "func Foo(a int) string".
Proof. by vm_compute. Qed.

Example displayName_sample :
  displayName "arrutil" = "array/Slice" ∧ displayName "dump" = "dump"
  ∧ displayName "timex" = "timex" ∧ UpperFirst "array/Slice" = "Array/Slice".
Proof. by vm_compute. Qed.

End gendocSignatures.

(** ** The generator: effects of a run *)

Module gendocRun.
Import Str StrFacts regexp gendoc.

Lemma run_bind {A B} (m : M A) (k : A → M B) (w : world) :
  (m ≫= k) w = match m w with
               | (Done a, w') => k a w'
               | (Panic, w') => (Panic, w')
               end.
Proof. reflexivity. Qed.

Lemma emits_ret {A} (a : A) : emits (ret a) a "" [].
Proof.
  intros w. exists w. by rewrite app_nil_r, (right_id_L [] (++)).
Qed.

Lemma emits_bind {A B} (m : M A) (k : A → M B) a b t1 t2 c1 c2 :
  emits m a t1 c1 → emits (k a) b t2 c2 →
  emits (m ≫= k) b (t1 +:+ t2) (c1 ++ c2).
Proof.
  intros Hm Hk w. destruct (Hm w) as (w1 & E1 & Hb1 & Hc1).
  destruct (Hk w1) as (w2 & E2 & Hb2 & Hc2).
  exists w2. rewrite run_bind, E1, E2, Hb2, Hb1, Hc2, Hc1.
  by rewrite app_assoc, (assoc_L (++)).
Qed.

Lemma emits_eq {A} (m : M A) a a' t t' c c' :
  emits m a t c → a = a' → t = t' → c = c' → emits m a' t' c'.
Proof. by intros H <- <- <-. Qed.

Lemma emits_if {A} (b : bool) (m1 m2 : M A) a1 a2 t1 t2 c1 c2 :
  emits m1 a1 t1 c1 → emits m2 a2 t2 c2 →
  emits (if b then m1 else m2) (if b then a1 else a2)
    (if b then t1 else t2) (if b then c1 else c2).
Proof. by destruct b. Qed.

Lemma emits_ext {A} (m m' : M A) a t c :
  (∀ w, m w = m' w) → emits m a t c → emits m' a t c.
Proof.
  intros E H w. destruct (H w) as (w' & ? & ? & ?). exists w'. by rewrite <- E.
Qed.

Lemma bind_assoc {A B C} (m : M A) (f : A → M B) (g : B → M C) (w : world) :
  ((m ≫= f) ≫= g) w = (m ≫= (λ x, f x ≫= g)) w.
Proof. rewrite !run_bind. by destruct (m w) as [[a|] w1]. Qed.

Lemma emits_bufWrite (s : string) : emits (bufWrite s) tt s [].
Proof. intros w. eexists. split; [done|]. simpl. by rewrite (right_id_L [] (++)). Qed.

Lemma emits_logCall (c : fsCall) : emits (logCall c) tt "" [c].
Proof. intros w. eexists. split; [done|]. simpl. by rewrite app_nil_r. Qed.

Lemma emits_setPkgName (dir pkgPath : string) :
  emits (setPkgName dir pkgPath) tt "" [].
Proof.
  intros w. eexists. split; [done|]. simpl.
  by rewrite app_nil_r, (right_id_L [] (++)).
Qed.

Lemma emits_run {A} (m : M A) a t c (w : world) :
  emits m a t c →
  ∃ w', m w = (Done a, w') ∧ buf w' = buf w +:+ t ∧ calls w' = calls w ++ c.
Proof. intros H. apply H. Qed.

Lemma readsOnly_emits {A} (S : string → Prop) (m : M A) a t c :
  emits m a t c → mustReads c = [] → readsOnly S m.
Proof.
  intros H Hc w. destruct (H w) as (w' & E & _ & Hcalls).
  exists c. rewrite E. simpl. by rewrite Hc.
Qed.

Lemma readsOnly_ret {A} (S : string → Prop) (a : A) : readsOnly S (ret a).
Proof. intros w. exists []. by rewrite (right_id_L [] (++)). Qed.

Lemma readsOnly_panic {A} (S : string → Prop) : readsOnly S (@panic A).
Proof. intros w. exists []. by rewrite (right_id_L [] (++)). Qed.

Lemma mustReads_app (a b : list fsCall) :
  mustReads (a ++ b) = mustReads a ++ mustReads b.
Proof.
  induction a as [|[f|f] a IH]; simpl; [done | by rewrite IH | done].
Qed.

Lemma readsOnly_bind {A B} (S : string → Prop) (m : M A) (k : A → M B) :
  readsOnly S m → (∀ a, readsOnly S (k a)) → readsOnly S (m ≫= k).
Proof.
  intros Hm Hk w. destruct (Hm w) as (c1 & E1 & H1). rewrite run_bind.
  destruct (m w) as [[a|] w1]; simpl in *.
  - destruct (Hk a w1) as (c2 & E2 & H2). exists (c1 ++ c2).
    rewrite E2, E1, (assoc_L (++)), mustReads_app. split; [done|].
    by apply Forall_app.
  - eauto.
Qed.

Lemma readsOnly_mono {A} (S S' : string → Prop) (m : M A) :
  (∀ f, S f → S' f) → readsOnly S m → readsOnly S' m.
Proof.
  intros HS Hm w. destruct (Hm w) as (cs & E & H). exists cs. split; [done|].
  eapply Forall_impl; [exact H | done].
Qed.

#[local] Opaque emits.

Lemma emits_forEach_lines (lines : list string) (f : string → string) :
  emits (forEach (λ _ line, bufWriteln [f line]) lines tt) tt
    (cat (map (λ line, Sprintln [f line]) lines)) [].
Proof.
  induction lines as [|x lines IH]; simpl; [apply emits_ret|].
  eapply emits_eq; [eapply emits_bind; [apply emits_bufWrite | apply IH] | done..].
Qed.

Section Run.
Variable fs : string → option string.
Variable genOpts : genOptsSt.

Lemma emits_MustReadFile (filePath text : string) :
  fs filePath = Some text →
  emits (MustReadFile fs filePath) text "" [MustRead filePath].
Proof.
  intros E. unfold MustReadFile. rewrite E.
  eapply emits_eq; [eapply emits_bind; [apply emits_logCall | apply emits_ret] | done..].
Qed.

Lemma emits_ReadExistFile (filePath : string) :
  emits (ReadExistFile fs filePath) (optional fs filePath) "" [ReadExist filePath].
Proof.
  unfold ReadExistFile.
  eapply emits_eq; [eapply emits_bind; [apply emits_logCall | apply emits_ret] | done..].
Qed.

Lemma emits_doWriteDoc2buf (filename : string) :
  let body := optional fs (tplDir genOpts +:+ "/" +:+ filename) in
  emits (doWriteDoc2buf fs genOpts filename)
    (0 <? String.length body)%nat
    (if (0 <? String.length body)%nat then Sprintln [body] else "")
    [ReadExist (tplDir genOpts +:+ "/" +:+ filename)].
Proof.
  intros body. unfold doWriteDoc2buf.
  eapply emits_eq.
  - eapply emits_bind; [apply emits_ReadExistFile|]. fold body.
    eapply emits_if; [|apply emits_ret].
    eapply emits_bind; [apply emits_bufWrite | apply emits_ret].
  - by destruct (0 <? String.length body)%nat.
  - destruct (0 <? String.length body)%nat; [|done].
    by rewrite app_nil_r.
  - by destruct (0 <? String.length body)%nat.
Qed.

(** What [bufWriteDoc] adds is the fragment, and its lookups are in the
    order of [fragmentCalls]. *)
Lemma emits_bufWriteDoc (partNameTpl pkgName : string) :
  emits (bufWriteDoc fs genOpts partNameTpl pkgName) tt
    (fragment fs genOpts partNameTpl pkgName)
    (fragmentCalls fs genOpts partNameTpl pkgName).
Proof.
  unfold bufWriteDoc, fragment, fragmentCalls, fragmentPath.
  fold (langSuffix genOpts).
  set (first := optional fs _). set (second := optional fs _).
  eapply emits_eq.
  - eapply emits_bind; [apply emits_doWriteDoc2buf|]. cbv zeta. fold first.
    eapply emits_if; [|apply emits_ret].
    eapply emits_bind; [apply emits_doWriteDoc2buf | apply emits_ret].
  - by destruct (negb _).
  - cbv zeta. fold first second.
    destruct (0 <? String.length first)%nat; simpl; by rewrite app_nil_r.
  - cbv zeta. fold first.
    by destruct (0 <? String.length first)%nat.
Qed.

Variable basePkg : string.

Lemma mustReads_fragmentCalls (partNameTpl pkgName : string) :
  mustReads (fragmentCalls fs genOpts partNameTpl pkgName) = [].
Proof. unfold fragmentCalls. by destruct (0 <? _)%nat. Qed.

Lemma tracks_open (seen : list string) (l : locals) :
  tracks basePkg seen l →
  (0 <? size (pkgFuncs l))%nat = match seen with [] => false | _ => true end.
Proof.
  intros [Hk _]. destruct seen as [|d seen].
  - assert (pkgFuncs l = ∅) as ->; [|done].
    apply map_empty. intros k. apply eq_None_not_Some.
    intros (d & Hd & _)%Hk. by apply elem_of_nil in Hd.
  - apply Nat.ltb_lt.
    assert (size (pkgFuncs l) ≠ 0%nat); [|lia].
    intros E%map_size_empty_inv.
    assert (is_Some (pkgFuncs l !! (basePkg +:+ "/" +:+ d))) as [x Hx].
    { apply Hk. exists d. split; [left | done]. }
    by rewrite E, lookup_empty in Hx.
Qed.

Lemma emits_close (seen : list string) (l : locals) :
  tracks basePkg seen l →
  ∃ cs, emits (if (0 <? size (pkgFuncs l))%nat
               then (bufWriteln ["```"] ;; bufWriteDoc fs genOpts partDocTplE (dirname l))
               else ret tt) tt (footOf fs genOpts seen) cs
        ∧ mustReads cs = [].
Proof.
  intros Ht. rewrite (tracks_open _ _ Ht). destruct Ht as [_ Hd].
  destruct seen as [|d seen]; simpl in *.
  - exists []. split; [apply emits_ret | done].
  - rewrite Hd. eexists. split.
    + eapply emits_bind; [apply emits_bufWrite | apply emits_bufWriteDoc].
    + simpl. apply mustReads_fragmentCalls.
Qed.

Lemma collectFile_skipped (l : locals) (filename : string) :
  skipped filename = true →
  emits (collectFile fs genOpts basePkg l filename) l "" [].
Proof.
  unfold collectFile, skipped, dirOf. intros H.
  destruct (strings.HasSuffix filename "_test.go"); [apply emits_ret|].
  destruct (strings.HasSuffix filename "_windows.go"); [apply emits_ret|].
  simpl in H. destruct (strings.slice_to _ _); [|done].
  rewrite H. apply emits_ret.
Qed.

(** The lines of a file go to the buffer after its [MustReadFile]. *)
Lemma emits_lines (filename text : string) (l : locals) :
  fs filename = Some text →
  emits (text ← MustReadFile fs filename;
         let lines := FindAllString sigRe text in
         (if (0 <? length lines)%nat
          then (bufWriteln ["// source at"; filename] ;;
                forEach (λ _ line, bufWriteln [strings.TrimRight line "{ "])
                        lines tt)
          else ret tt) ;;
         ret l)
    l (fileBlock fs filename) [MustRead filename].
Proof.
  intros E. unfold fileBlock. rewrite E. simpl default.
  eapply emits_eq.
  - eapply emits_bind; [by apply emits_MustReadFile|]. cbv zeta.
    eapply emits_bind; [|apply emits_ret].
    eapply emits_if; [|apply emits_ret].
    eapply emits_bind; [apply emits_bufWrite | apply emits_forEach_lines].
  - done.
  - cbv zeta. destruct (0 <? _)%nat; simpl; by rewrite ?app_nil_r.
  - cbv zeta. by destruct (0 <? _)%nat.
Qed.

Lemma candidate_inv (filename : string) :
  skipped filename = false →
  strings.HasSuffix filename "_test.go" = false
  ∧ strings.HasSuffix filename "_windows.go" = false
  ∧ ∀ dir, dirOf filename = Some dir → StringsHas hidden dir = false.
Proof.
  unfold skipped. intros [[H1 H2]%orb_false_elim H3]%orb_false_elim.
  repeat split; try done. intros dir E. by rewrite E in H3.
Qed.

Lemma pkgPath_inj (d1 d2 : string) :
  basePkg +:+ "/" +:+ d1 = basePkg +:+ "/" +:+ d2 → d1 = d2.
Proof. intros H%app_inv_head. by injection H. Qed.

(** A file of a package that has its section goes on with the section that
    is open. *)
Lemma collectFile_continue (seen : list string) (l : locals)
    (filename dir text : string) :
  skipped filename = false → dirOf filename = Some dir →
  fs filename = Some text → dir ∈ seen → tracks basePkg seen l →
  ∃ l', emits (collectFile fs genOpts basePkg l filename) l'
          (fileBlock fs filename) [MustRead filename]
        ∧ tracks basePkg seen l'.
Proof.
  intros (H1 & H2 & H3)%candidate_inv Hd Hfs Hin [Hk Hn].
  unfold collectFile. fold (dirOf filename). rewrite H1, H2, Hd, (H3 _ Hd).
  assert (is_Some (pkgFuncs l !! (basePkg +:+ "/" +:+ dir))) as [ss Hss].
  { apply Hk. eauto. }
  rewrite Hss. eexists. split.
  - eapply emits_eq.
    + eapply emits_bind; [apply emits_setPkgName|].
      eapply emits_bind; [apply emits_ret|]. by apply (emits_lines _ text).
    + done.
    + done.
    + done.
  - split; [|done]. simpl. intros k. rewrite <- Hk.
    destruct (decide (k = basePkg +:+ "/" +:+ dir)) as [->|Hne].
    + rewrite lookup_insert_eq, Hss. split; eauto.
    + by rewrite lookup_insert_ne.
Qed.

(** A file of a package that has no section yet closes the section that is
    open and opens one. *)
Lemma collectFile_open (seen : list string) (l : locals)
    (filename dir text : string) :
  skipped filename = false → dirOf filename = Some dir →
  fs filename = Some text → dir ∉ seen → tracks basePkg seen l →
  ∃ l' cs, emits (collectFile fs genOpts basePkg l filename) l'
             (footOf fs genOpts seen +:+ sectionHead fs genOpts basePkg dir
              +:+ fileBlock fs filename) cs
           ∧ mustReads cs = [filename]
           ∧ tracks basePkg (dir :: seen) l'.
Proof.
  intros (H1 & H2 & H3)%candidate_inv Hd Hfs Hin Ht.
  destruct (emits_close _ _ Ht) as (cs0 & Hclose & Hcs0).
  destruct Ht as [Hk Hn].
  unfold collectFile. fold (dirOf filename). rewrite H1, H2, Hd, (H3 _ Hd).
  destruct (pkgFuncs l !! (basePkg +:+ "/" +:+ dir)) as [ss|] eqn:Hss.
  { exfalso. apply Hin.
    destruct (proj1 (Hk _) (mk_is_Some _ _ Hss)) as (d & Hd' & ->%pkgPath_inj).
    done. }
  eexists _, _. split; [|split].
  - eapply emits_eq.
    + eapply emits_bind; [apply emits_setPkgName|].
      eapply emits_bind; [|by apply (emits_lines _ text)].
      eapply emits_bind; [apply Hclose|]. cbv zeta.
      eapply emits_bind; [apply emits_bufWrite|].
      eapply emits_bind; [apply emits_bufWrite|].
      eapply emits_bind; [apply emits_bufWriteDoc|].
      eapply emits_bind; [apply emits_bufWrite | apply emits_ret].
    + done.
    + unfold sectionHead, sectionTitle, fenceOpen, displayName, bufWritef.
      simpl. by rewrite !app_assoc, ?app_nil_r.
    + done.
  - rewrite !mustReads_app, Hcs0, mustReads_fragmentCalls. done.
  - split; [|done]. simpl. intros k.
    destruct (decide (k = basePkg +:+ "/" +:+ dir)) as [->|Hne].
    + rewrite lookup_insert_eq. split; [|eauto]. intros _.
      exists dir. split; [left | done].
    + rewrite lookup_insert_ne by done. rewrite Hk. split.
      * intros (d & Hd' & ->). exists d. split; [by right | done].
      * intros (d & [->|Hd']%elem_of_cons & ->); [done | eauto].
Qed.

Lemma loadable_inv (filename : string) :
  loadable fs filename = true → skipped filename = false →
  ∃ dir text, dirOf filename = Some dir ∧ fs filename = Some text.
Proof.
  unfold loadable. intros H Hs. rewrite Hs in H. simpl in H.
  apply andb_prop in H as [[d Hd]%bool_decide_eq_true [t Ht]%bool_decide_eq_true].
  eauto.
Qed.

Lemma sections_seen (seen : list string) (f dir : string) (files : list string) :
  dirOf f = Some dir → dir ∈ seen →
  sections seen (f :: files) = ((f :: (sections seen files).1), (sections seen files).2).
Proof.
  intros Hd Hin. simpl. rewrite Hd. simpl. rewrite bool_decide_eq_true_2 by done.
  by destruct (sections seen files).
Qed.

Lemma sections_new (seen : list string) (f dir : string) (files : list string) :
  dirOf f = Some dir → dir ∉ seen →
  sections seen (f :: files)
  = ([], (dir, f :: (sections (dir :: seen) files).1)
         :: (sections (dir :: seen) files).2).
Proof.
  intros Hd Hin. simpl. rewrite Hd. simpl. rewrite bool_decide_eq_false_2 by done.
  by destruct (sections (dir :: seen) files).
Qed.

Lemma outputFrom_eq (seen : list string) (ms : list string) :
  outputFrom fs genOpts basePkg seen ms
  = Str.cat (map (fileBlock fs) (sections seen (List.filter candidate ms)).1)
    +:+ footOf fs genOpts seen
    +:+ Str.cat (map (renderSection fs genOpts basePkg)
                   (sections seen (List.filter candidate ms)).2).
Proof. unfold outputFrom. by destruct (sections _ _). Qed.

Lemma filter_candidate_keep (f : string) (ms : list string) :
  skipped f = false →
  List.filter candidate (f :: ms) = f :: List.filter candidate ms.
Proof. intros H. simpl. unfold candidate at 1. by rewrite H. Qed.

Lemma filter_candidate_drop (f : string) (ms : list string) :
  skipped f = true →
  List.filter candidate (f :: ms) = List.filter candidate ms.
Proof. intros H. simpl. unfold candidate at 1. by rewrite H. Qed.

(** The loop and the final flush, from any state of the locals. *)
Lemma loop_spec (ms : list string) :
  ∀ seen l,
    Forall (λ f, loadable fs f = true) ms → tracks basePkg seen l →
    ∃ cs, emits (forEach (collectFile fs genOpts basePkg) ms l
                 ≫= flush fs genOpts) tt
            (outputFrom fs genOpts basePkg seen ms) cs
          ∧ mustReads cs = List.filter candidate ms.
Proof.
  induction ms as [|f ms IH]; intros seen l Hms Ht.
  - destruct (emits_close _ _ Ht) as (cs & Hc & Hcs). exists cs. split; [|done].
    rewrite outputFrom_eq. simpl. rewrite app_nil_r.
    eapply emits_ext; [|apply Hc]. done.
  - apply Forall_cons in Hms as [Hf Hms].
    destruct (skipped f) eqn:Hskip.
    + destruct (IH seen l Hms Ht) as (cs & Hc & Hcs). exists cs.
      rewrite outputFrom_eq, filter_candidate_drop, <- outputFrom_eq by done.
      split; [|done].
      eapply emits_ext; [intros w; symmetry; apply bind_assoc|].
      eapply emits_eq;
        [eapply emits_bind; [by apply collectFile_skipped | apply Hc] |..];
        done.
    + destruct (loadable_inv _ Hf Hskip) as (dir & text & Hd & Hfs).
      rewrite outputFrom_eq, filter_candidate_keep by done.
      destruct (decide (dir ∈ seen)) as [Hin|Hin].
      * destruct (collectFile_continue _ _ _ _ _ Hskip Hd Hfs Hin Ht)
          as (l' & Hstep & Ht').
        destruct (IH seen l' Hms Ht') as (cs & Hc & Hcs).
        exists ([MustRead f] ++ cs). split; [|by rewrite <- Hcs].
        eapply emits_ext; [intros w; symmetry; apply bind_assoc|].
        eapply emits_eq; [eapply emits_bind; [apply Hstep | apply Hc] |..];
          try done.
        rewrite outputFrom_eq, (sections_seen _ _ _ _ Hd Hin). simpl.
        by rewrite !app_assoc.
      * destruct (collectFile_open _ _ _ _ _ Hskip Hd Hfs Hin Ht)
          as (l' & cs0 & Hstep & Hcs0 & Ht').
        destruct (IH (dir :: seen) l' Hms Ht') as (cs & Hc & Hcs).
        exists (cs0 ++ cs). split; [|by rewrite mustReads_app, Hcs0, Hcs].
        eapply emits_ext; [intros w; symmetry; apply bind_assoc|].
        eapply emits_eq; [eapply emits_bind; [apply Hstep | apply Hc] |..];
          try done.
        rewrite outputFrom_eq, (sections_new _ _ _ _ Hd Hin). simpl.
        unfold renderSection at 2. simpl.
        by rewrite !app_assoc.
Qed.

Lemma sections_nil_run (files : list string) : (sections [] files).1 = [].
Proof.
  destruct files as [|f files]; [done|]. cbn [sections].
  rewrite bool_decide_eq_false_2 by apply not_elem_of_nil.
  by destruct (sections _ files).
Qed.

(** The run of [collectPgkFunc] on files it can go through: no panic, the
    buffer holds the sections of the candidate files one after the other,
    and the files read are the candidate files. *)
Lemma collectPgkFunc_spec (ms : list string) (w : world) :
  Forall (λ f, loadable fs f = true) ms →
  ∃ w', collectPgkFunc fs genOpts ms basePkg w
        = (Done (Str.cat (map (renderSection fs genOpts basePkg)
                            (sections [] (List.filter candidate ms)).2)), w')
    ∧ mustReads (calls w') = mustReads (calls w) ++ List.filter candidate ms.
Proof.
  intros Hms.
  destruct (loop_spec ms [] {| name := ""; dirname := ""; pkgFuncs := ∅ |} Hms)
    as (cs & Hc & Hcs).
  { split; [|done]. intros k. simpl. rewrite lookup_empty. split.
    - by intros [? ?].
    - intros (d & Hd & _). by apply elem_of_nil in Hd. }
  set (w0 := {| buf := ""; pkgNames := pkgNames w; calls := calls w |}).
  destruct (emits_run _ _ _ _ w0 Hc) as (w' & E & Hb & Hcalls).
  exists w'. split.
  - unfold collectPgkFunc. rewrite run_bind.
    change (bufReset w) with (Done (), w0). cbv iota beta.
    rewrite <- (bind_assoc _ (flush fs genOpts) (λ _, bufString)), run_bind, E.
    unfold bufString.
    rewrite Hb, outputFrom_eq, sections_nil_run. done.
  - by rewrite Hcalls, mustReads_app, Hcs.
Qed.

Lemma readsOnly_MustReadFile (S : string → Prop) (filePath : string) :
  S filePath → readsOnly S (MustReadFile fs filePath).
Proof.
  intros HS w. exists [MustRead filePath]. split; [|by repeat constructor].
  unfold MustReadFile. rewrite run_bind. by destruct (fs filePath).
Qed.

Lemma readsOnly_bufWrite (S : string → Prop) (t : string) :
  readsOnly S (bufWrite t).
Proof. eapply readsOnly_emits; [apply emits_bufWrite | done]. Qed.

Lemma readsOnly_bufWriteDoc (S : string → Prop) (partNameTpl pkgName : string) :
  readsOnly S (bufWriteDoc fs genOpts partNameTpl pkgName).
Proof.
  eapply readsOnly_emits; [apply emits_bufWriteDoc|].
  apply mustReads_fragmentCalls.
Qed.

Lemma readsOnly_lines (S : string → Prop) (lines : list string) (f : string → string) :
  readsOnly S (forEach (λ _ line, bufWriteln [f line]) lines tt).
Proof. eapply readsOnly_emits; [apply emits_forEach_lines | done]. Qed.

(** A step of the loop reads no file but its own, and that one only when no
    exclusion rule names it. *)
Lemma readsOnly_collectFile (l : locals) (filename : string) :
  readsOnly (λ f, f = filename ∧ candidate filename = true)
    (collectFile fs genOpts basePkg l filename).
Proof.
  unfold collectFile. fold (dirOf filename).
  destruct (strings.HasSuffix filename "_test.go") eqn:E1; [apply readsOnly_ret|].
  destruct (strings.HasSuffix filename "_windows.go") eqn:E2; [apply readsOnly_ret|].
  destruct (dirOf filename) as [dir|] eqn:Ed; [|apply readsOnly_panic].
  destruct (StringsHas hidden dir) eqn:E3; [apply readsOnly_ret|].
  assert (candidate filename = true) as Hc.
  { unfold candidate, skipped. by rewrite E1, E2, Ed, E3. }
  apply readsOnly_bind; [eapply readsOnly_emits; [apply emits_setPkgName | done]|].
  intros _. apply readsOnly_bind.
  - destruct (pkgFuncs l !! _); [apply readsOnly_ret|].
    apply readsOnly_bind.
    + destruct (0 <? _)%nat; [|apply readsOnly_ret].
      apply readsOnly_bind; [apply readsOnly_bufWrite|].
      intros _. apply readsOnly_bufWriteDoc.
    + intros _. cbv zeta.
      apply readsOnly_bind; [apply readsOnly_bufWrite|]. intros _.
      apply readsOnly_bind; [apply readsOnly_bufWrite|]. intros _.
      apply readsOnly_bind; [apply readsOnly_bufWriteDoc|]. intros _.
      apply readsOnly_bind; [apply readsOnly_bufWrite|]. intros _.
      apply readsOnly_ret.
  - intros l'. apply readsOnly_bind; [by apply readsOnly_MustReadFile|].
    intros text. cbv zeta. apply readsOnly_bind; [|intros _; apply readsOnly_ret].
    destruct (0 <? _)%nat; [|apply readsOnly_ret].
    apply readsOnly_bind; [apply readsOnly_bufWrite|].
    intros _. apply readsOnly_lines.
Qed.

Lemma readsOnly_loop (ms : list string) (l : locals) :
  readsOnly (λ f, f ∈ ms ∧ candidate f = true)
    (forEach (collectFile fs genOpts basePkg) ms l).
Proof.
  revert l; induction ms as [|f ms IH]; intros l; [apply readsOnly_ret|].
  simpl. apply readsOnly_bind.
  - eapply readsOnly_mono; [|apply readsOnly_collectFile].
    intros g [-> Hc]. split; [left | done].
  - intros l'. eapply readsOnly_mono; [|apply IH].
    intros g [Hg Hc]. split; [by right | done].
Qed.

(** Whether or not the run panics, [collectPgkFunc] reads no file that an
    exclusion rule names. *)
Lemma readsOnly_collectPgkFunc (ms : list string) :
  readsOnly (λ f, f ∈ ms ∧ candidate f = true)
    (collectPgkFunc fs genOpts ms basePkg).
Proof.
  unfold collectPgkFunc.
  apply readsOnly_bind.
  { intros w. exists []. by rewrite (right_id_L [] (++)). }
  intros _. apply readsOnly_bind; [apply readsOnly_loop|].
  intros l. apply readsOnly_bind.
  - unfold flush. destruct (0 <? _)%nat; [|apply readsOnly_ret].
    apply readsOnly_bind; [apply readsOnly_bufWrite|].
    intros _. apply readsOnly_bufWriteDoc.
  - intros _ w. exists []. by rewrite (right_id_L [] (++)).
Qed.

End Run.

End gendocRun.

(** ** The generator: extraction of signatures *)

Module gendocExtraction.
Import Str StrFacts strings stringsFacts regexp regexpFacts gendoc.
Import gendocSignatures gendocRun.

Lemma signature_lines_matches (text : string) (l : list string) :
  signature_lines text l → Forall (matches sigRe) l.
Proof. induction 1; by constructor. Qed.

(** C10. The pattern asks for an upper-case letter followed by one or more
    word characters: in every file text, each extracted match starts with
    the keyword and a name of two characters or more, so no match starts at
    a declaration whose name is a single letter, as in [func F(a int) {],
    from which nothing is extracted. *)
Theorem single_letter_names_not_extracted (text : string) :
  Forall (λ m, ∃ u w rest,
            m = "func " +:+ String u (String w rest)
            ∧ upper u = true ∧ word w = true)
         (FindAllString sigRe text)
  ∧ (∀ u rest, "func " +:+ String u ("(" +:+ rest) ∉ FindAllString sigRe text)
  ∧ FindAllString sigRe "func F(a int) {" = [].
Proof.
  assert (Forall (λ m, ∃ u w rest,
            m = "func " +:+ String u (String w rest)
            ∧ upper u = true ∧ word w = true)
         (FindAllString sigRe text)) as Hall.
  { eapply Forall_impl; [exact (signature_lines_matches _ _ (FindAllString_spec text))|].
    intros m (u & w & name & args & tail & -> & Hu & Hw & _)%sigRe_matches.
    exists u, w, (name +:+ "(" +:+ args +:+ ")" +:+ tail). done. }
  split; [done|]. split; [|by vm_compute].
  intros u rest Hin. rewrite Forall_forall in Hall.
  destruct (Hall _ Hin) as (u' & w & rest' & E & _ & Hw).
  injection E as _ <- _. by vm_compute in Hw.
Qed.

(** C2, the claim as it is worded, fails: [func F(a int) {] is a function
    declaration whose name starts with an upper-case letter, and nothing is
    extracted from a file that holds it. *)
Lemma exported_declaration_not_extracted :
  exported_declaration "func F(a int) {"
  ∧ FindAllString sigRe "func F(a int) {" = []
  ∧ fileBlock (λ _, Some "func F(a int) {") "x/f.go" = "".
Proof.
  split; [|by vm_compute].
  exists "F"%char, "", "a int", " {". by vm_compute.
Qed.

(** C2, as the code has it.  For every file text, the lines recorded for
    the file are the matches of the pattern with the trailing braces and
    spaces removed, after a line that names the file.  The matches are
    fixed by the text alone: they are, in order, the leftmost substrings
    that are made of the keyword, a name of an upper-case letter and one or
    more further word characters, and a parenthesis closed on the line, and
    that run to the end of their line.  Of [func Foo(a int) string {] and
    [func bar(a int) {] only the first is recorded, as
    [func Foo(a int) string]. *)
Theorem signature_extraction (fs : string → option string)
    (genOpts : genOptsSt) (basePkg : string) (seen : list string)
    (l : locals) (filename dir text : string) :
  skipped filename = false → dirOf filename = Some dir →
  fs filename = Some text → dir ∈ seen → tracks basePkg seen l →
  let lines := FindAllString sigRe text in
  let recorded := map (λ m, TrimRight m "{ ") lines in
  (∃ l', emits (collectFile fs genOpts basePkg l filename) l'
           (if (0 <? length lines)%nat
            then "// source at " +:+ filename +:+ nl
                 +:+ cat (map (λ r, r +:+ nl) recorded)
            else "")
           [MustRead filename])
  ∧ (∀ l0, signature_lines text l0 ↔ l0 = lines)
  ∧ Forall signature_shape lines
  ∧ Forall (λ m, ∃ junk, m = TrimRight m "{ " +:+ junk
                   ∧ all (λ c, mem c "{ ") junk = true
                   ∧ ∀ t c, TrimRight m "{ " = t +:+ String c ""
                            → mem c "{ " = false) lines
  ∧ map (λ m, TrimRight m "{ ")
        (FindAllString sigRe
           (unlines ["func Foo(a int) string {"; "func bar(a int) {"]))
    = ["func Foo(a int) string"].
Proof.
  intros Hskip Hd Hfs Hin Ht lines recorded. split; [|split; [|split; [|split]]].
  - destruct (collectFile_continue fs genOpts basePkg _ _ _ _ _ Hskip Hd Hfs Hin Ht)
      as (l' & Hemit & _).
    exists l'. eapply emits_eq; [apply Hemit | done | | done].
    unfold fileBlock. rewrite Hfs. simpl default. fold lines.
    destruct (0 <? length lines)%nat; [|done].
    unfold recorded. rewrite map_map. cbn [Sprintln]. by rewrite !app_assoc.
  - intros l0. apply FindAllString_iff.
  - eapply Forall_impl; [exact (signature_lines_matches _ _ (FindAllString_spec text))|].
    intros m. apply sigRe_matches.
  - apply Forall_forall. intros m _. apply TrimRight_spec.
  - by vm_compute.
Qed.

Lemma signature_extraction_witness :
  ∃ l', emits (collectFile demoFs demoOpts "base"
                 {| name := "array/Slice"; dirname := "arrutil";
                    pkgFuncs := {[ "base/arrutil" := ["xx"] ]} |}
                 "arrutil/check.go") l'
          ("// source at arrutil/check.go" +:+ nl
           +:+ "func StringsHas(ss []string, val string) bool" +:+ nl)
          [MustRead "arrutil/check.go"].
Proof.
  refine (proj1 (signature_extraction demoFs demoOpts "base" ["arrutil"]
    {| name := "array/Slice"; dirname := "arrutil";
       pkgFuncs := {[ "base/arrutil" := ["xx"] ]} |}
    "arrutil/check.go" "arrutil"
    (unlines ["func StringsHas(ss []string, val string) bool {"]) _ _ _ _ _)).
  - vm_compute. reflexivity.
  - vm_compute. reflexivity.
  - vm_compute. reflexivity.
  - left.
  - split; [|reflexivity]. intros k. simpl.
    destruct (decide (k = "base/arrutil")) as [->|Hne].
    + rewrite lookup_singleton_eq. split; [|eauto].
      intros _. exists "arrutil". split; [left | reflexivity].
    + rewrite lookup_singleton_ne by done. split.
      * by intros [? ?].
      * intros (d & ->%list_elem_of_singleton & ->). done.
Defined.

End gendocExtraction.

(** ** The generator: fragments and the template *)

Module gendocTemplate.
Import Str StrFacts strings stringsFacts regexp gendoc gendocRun.

(** C5. Placeholder substitution.  When the template holds the token
    [{{pgkFuncs}}] exactly once, what is written is the template with the
    token replaced by the assembled body and every other byte as it was;
    when no template content was loaded (no template directory, or an empty
    template file), the assembled body is written as it is. *)
Theorem placeholder_substitution (fs : string → option string)
    (genOpts : genOptsSt) (pathJoin : string → string → string)
    (ms : list string) (pre post body : string) (w w' : world) :
  length (occurrences "{{pgkFuncs}}" (pre +:+ "{{pgkFuncs}}" +:+ post)) = 1%nat →
  render (pre +:+ "{{pgkFuncs}}" +:+ post) body = pre +:+ body +:+ post
  ∧ render "" body = body
  ∧ (tplDir genOpts ≠ "" →
     fs (tplFilepath genOpts pathJoin "") = Some (pre +:+ "{{pgkFuncs}}" +:+ post) →
     collectPgkFunc fs genOpts ms "github.com/gookit/goutil"
       (logged (MustRead (tplFilepath genOpts pathJoin "")) w) = (Done body, w') →
     main fs genOpts pathJoin ms w = (Done (pre +:+ body +:+ post), w'))
  ∧ (tplDir genOpts = "" →
     collectPgkFunc fs genOpts ms "github.com/gookit/goutil" w = (Done body, w') →
     main fs genOpts pathJoin ms w = (Done body, w'))
  ∧ (tplDir genOpts ≠ "" → fs (tplFilepath genOpts pathJoin "") = Some "" →
     collectPgkFunc fs genOpts ms "github.com/gookit/goutil"
       (logged (MustRead (tplFilepath genOpts pathJoin "")) w) = (Done body, w') →
     main fs genOpts pathJoin ms w = (Done body, w')).
Proof.
  intros Hone.
  assert (render (pre +:+ "{{pgkFuncs}}" +:+ post) body = pre +:+ body +:+ post)
    as Hrender.
  { unfold render. rewrite !length_app. simpl String.length.
    destruct (Nat.ltb_spec 0 (String.length pre + (12 + String.length post))); [|lia].
    by apply Replace1_once. }
  split; [done|]. split; [done|]. split; [|split].
  - intros Hdir Hfs Hrun. unfold main.
    destruct (String.eqb_spec (tplDir genOpts) "") as [|_]; [done|]. simpl negb.
    rewrite run_bind. unfold MustReadFile at 1. rewrite Hfs, run_bind.
    change (logCall ?c w) with (Done (), logged c w). cbv iota beta.
    change (ret ?x ?w0) with (Done x, w0). cbv iota beta.
    rewrite run_bind, Hrun. by rewrite Hrender.
  - intros Hdir Hrun. unfold main. rewrite Hdir. simpl.
    rewrite run_bind. change (ret ?x ?w0) with (Done x, w0). cbv iota beta.
    by rewrite run_bind, Hrun.
  - intros Hdir Hfs Hrun. unfold main.
    destruct (String.eqb_spec (tplDir genOpts) "") as [|_]; [done|]. simpl negb.
    rewrite run_bind. unfold MustReadFile at 1. rewrite Hfs, run_bind.
    change (logCall ?c w) with (Done (), logged c w). cbv iota beta.
    change (ret ?x ?w0) with (Done x, w0). cbv iota beta.
    by rewrite run_bind, Hrun.
Qed.

Lemma placeholder_substitution_witness :
  (main demoFs demoOpts demoJoin demoGlob demoWorld).1
  = Done (unlines ["# GoUtil"] +:+ demoBody +:+ unlines [""; "## License"]).
Proof.
  pose proof (placeholder_substitution demoFs demoOpts demoJoin demoGlob
    (unlines ["# GoUtil"]) (unlines [""; "## License"]) demoBody demoWorld
    (collectPgkFunc demoFs demoOpts demoGlob "github.com/gookit/goutil"
       (logged (MustRead "tpl/README.zh-CN.md.tpl") demoWorld)).2) as H.
  destruct H as (_ & _ & H & _); [by vm_compute|].
  rewrite H; [reflexivity | by vm_compute | by vm_compute | by vm_compute].
Defined.

(** C6. Fragment fallback.  For a fragment of either kind and any package
    name, when the configured language is not the default one and its file
    is absent while the file of the default language has content, that
    content goes to the buffer: the file of the language is looked up first
    and the one of the default language after it.  When the file of the
    language has content, it is used and no second lookup is made. *)
Theorem fragment_fallback (fs : string → option string) (genOpts : genOptsSt)
    (partNameTpl pkgName body : string) :
  lang genOpts ≠ "en" → body ≠ "" →
  let langFile := tplDir genOpts +:+ "/"
                  +:+ Sprintf partNameTpl [pkgName; "." +:+ lang genOpts] in
  let defaultFile := tplDir genOpts +:+ "/"
                     +:+ Sprintf partNameTpl [pkgName; ""] in
  (fs langFile = None → fs defaultFile = Some body →
   emits (bufWriteDoc fs genOpts partNameTpl pkgName) tt (body +:+ nl)
     [ReadExist langFile; ReadExist defaultFile]
   ∧ fragment fs genOpts partNameTpl pkgName = body +:+ nl)
  ∧ (fs langFile = Some body →
     emits (bufWriteDoc fs genOpts partNameTpl pkgName) tt (body +:+ nl)
       [ReadExist langFile]).
Proof.
  intros Hlang Hbody langFile defaultFile.
  assert (langSuffix genOpts = "." +:+ lang genOpts) as Hsuf.
  { unfold langSuffix. by destruct (String.eqb_spec (lang genOpts) "en"). }
  assert ((0 <? String.length body)%nat = true) as Hlen.
  { destruct body; [done|]. done. }
  pose proof (emits_bufWriteDoc fs genOpts partNameTpl pkgName) as H.
  unfold fragment, fragmentCalls, fragmentPath, optional in *.
  rewrite Hsuf in H. fold langFile defaultFile in H |- *.
  split.
  - intros E1 E2. rewrite Hsuf. fold langFile. rewrite E1, E2 in *.
    simpl in *. rewrite Hlen in *. done.
  - intros E1. rewrite E1 in H. simpl in H. by rewrite Hlen in H.
Qed.

Lemma fragment_fallback_witness :
  emits (bufWriteDoc demoFs demoOpts partDocTplE "arrutil") tt
    ("#### ArrUtil Usage" +:+ nl)
    [ReadExist "tpl/part-arrutil.zh-CN.md"; ReadExist "tpl/part-arrutil.md"].
Proof.
  refine (proj1 (proj1 (fragment_fallback demoFs demoOpts partDocTplE "arrutil"
    "#### ArrUtil Usage" _ _) _ _)).
  - by vm_compute.
  - by vm_compute.
  - by vm_compute.
  - by vm_compute.
Defined.

End gendocTemplate.

(** ** The generator: files, sections and fences *)

Module gendocSections.
Import Str StrFacts strings stringsFacts regexp gendoc gendocRun.

Lemma dirOf_spec (filename dir : string) :
  dirOf filename = Some dir
  ↔ ∃ rest, filename = dir +:+ String "/" rest ∧ IndexByte dir "/" = -1.
Proof.
  unfold dirOf, slice_to. split.
  - destruct (Z.leb_spec 0 (IndexByte filename "/")) as [Hi|]; [|done].
    destruct (_ <=? _); [|done]. simpl. intros [= <-].
    destruct (IndexByte_found filename "/" Hi) as [Hs Hn]. eauto.
  - intros (rest & -> & Hn). rewrite (IndexByte_first _ _ _ Hn).
    rewrite length_app. simpl String.length.
    destruct (Z.leb_spec 0 (Z.of_nat (String.length dir))); [|lia].
    destruct (Z.leb_spec (Z.of_nat (String.length dir))
                (Z.of_nat (String.length dir + S (String.length rest)))); [|lia].
    simpl. by rewrite Nat2Z.id, take_app_length.
Qed.

(** The candidates are the paths that no exclusion rule names. *)
Lemma candidate_spec (filename : string) :
  candidate filename = true
  ↔ ¬ (∃ p, filename = p +:+ "_test.go")
    ∧ ¬ (∃ p, filename = p +:+ "_windows.go")
    ∧ ¬ (∃ dir rest, filename = dir +:+ String "/" rest
                     ∧ IndexByte dir "/" = -1 ∧ dir ∈ hidden).
Proof.
  unfold candidate, skipped. rewrite negb_true_iff, !orb_false_iff.
  rewrite <- !not_true_iff_false, !HasSuffix_spec.
  split.
  - intros [[H1 H2] H3]. split; [done|]. split; [done|].
    intros (dir & rest & Hf & Hn & Hh).
    assert (dirOf filename = Some dir) as E by (apply dirOf_spec; eauto).
    rewrite E in H3. apply H3. by apply bool_decide_eq_true.
  - intros (H1 & H2 & H3). split; [done|].
    destruct (dirOf filename) as [dir|] eqn:E; [|done].
    intros Hh%bool_decide_eq_true. apply dirOf_spec in E as (rest & Hf & Hn).
    apply H3. eauto.
Qed.

(** C3. Filtering.  Whatever the paths, and whether or not the run panics,
    the collector reads no path whose immediate subdirectory is a hidden
    package, no path that ends in [_test.go] and no path that ends in
    [_windows.go].  On globbed paths the run can go through (each is passed
    over, or has a subdirectory and can be read) there is no panic and the
    files read are, in order, all the other paths.  When nothing is left
    the run returns the empty text, without an error. *)
Theorem filtering_completeness (fs : string → option string)
    (genOpts : genOptsSt) (basePkg : string) (ms : list string) (w : world) :
  (∃ cs, calls (collectPgkFunc fs genOpts ms basePkg w).2 = calls w ++ cs
         ∧ Forall (λ f, f ∈ List.filter candidate ms) (mustReads cs))
  ∧ (Forall (λ f, loadable fs f = true) ms →
     ∃ out w',
       collectPgkFunc fs genOpts ms basePkg w = (Done out, w')
       ∧ mustReads (calls w') = mustReads (calls w) ++ List.filter candidate ms
       ∧ (List.filter candidate ms = [] → out = ""))
  ∧ (∀ f, f ∈ List.filter candidate ms ↔
       f ∈ ms
       ∧ ¬ (∃ p, f = p +:+ "_test.go")
       ∧ ¬ (∃ p, f = p +:+ "_windows.go")
       ∧ ¬ (∃ dir rest, f = dir +:+ String "/" rest
                        ∧ IndexByte dir "/" = -1 ∧ dir ∈ hidden)).
Proof.
  split; [|split].
  - destruct (readsOnly_collectPgkFunc fs genOpts basePkg ms w) as (cs & E & H).
    exists cs. split; [done|]. eapply Forall_impl; [exact H|].
    intros f [Hf Hc]. rewrite list_elem_of_In, filter_In, <- list_elem_of_In. done.
  - intros Hms.
    destruct (collectPgkFunc_spec fs genOpts basePkg ms w Hms)
      as (w' & Hrun & Hreads).
    eexists _, w'. split; [exact Hrun|]. split; [done|]. by intros ->.
  - intros f. rewrite list_elem_of_In, filter_In, <- list_elem_of_In.
    by rewrite candidate_spec.
Qed.

Lemma filtering_completeness_witness :
  ∃ out w',
    collectPgkFunc demoFs demoOpts demoGlob "base" demoWorld = (Done out, w')
    ∧ mustReads (calls w')
      = ["arrutil/arrutil.go"; "arrutil/check.go"; "arrutil/format.go";
         "dump/dump.go"; "dump/dumper.go"].
Proof.
  destruct (proj1 (proj2 (filtering_completeness demoFs demoOpts "base"
                            demoGlob demoWorld)))
    as (out & w' & Hrun & Hreads & _).
  - apply Forall_forall. intros f Hf.
    repeat (apply elem_of_cons in Hf as [->|Hf]; [by vm_compute|]).
    by apply elem_of_nil in Hf.
  - exists out, w'. split; [exact Hrun|]. rewrite Hreads. reflexivity.
Defined.

Lemma sections_partition (seen : list string) (files : list string) :
  (sections seen files).1 ++ concat (map snd (sections seen files).2) = files.
Proof.
  revert seen; induction files as [|f files IH]; intros seen; [done|].
  cbn [sections]. destruct (bool_decide _).
  - specialize (IH seen). destruct (sections seen files) as [run secs].
    simpl in *. by rewrite IH.
  - specialize (IH (default "" (dirOf f) :: seen)).
    destruct (sections _ files) as [run secs]. simpl in *. by rewrite IH.
Qed.

(** The texts of a run, byte for byte. *)
Lemma fileBlock_text (fs : string → option string) (f : string) :
  fileBlock fs f
  = let lines := FindAllString sigRe (default "" (fs f)) in
    if (0 <? length lines)%nat
    then "// source at " +:+ f +:+ nl
         +:+ cat (map (λ m, TrimRight m "{ " +:+ nl) lines)
    else "".
Proof.
  unfold fileBlock. cbv zeta. destruct (0 <? _)%nat; [|done].
  cbn [Sprintln]. by rewrite !app_assoc.
Qed.

Lemma fragment_text (fs : string → option string) (genOpts : genOptsSt)
    (partNameTpl pkgName : string) :
  fragment fs genOpts partNameTpl pkgName
  = let first := optional fs (fragmentPath genOpts partNameTpl pkgName
                                (langSuffix genOpts)) in
    let second := optional fs (fragmentPath genOpts partNameTpl pkgName "") in
    if (0 <? String.length first)%nat then first +:+ nl
    else if (0 <? String.length second)%nat then second +:+ nl
    else "".
Proof. reflexivity. Qed.

Lemma sectionHead_text (fs : string → option string) (genOpts : genOptsSt)
    (basePkg dir : string) :
  sectionHead fs genOpts basePkg dir
  = nl +:+ "### " +:+ UpperFirst (displayName dir) +:+ nl
    +:+ nl +:+ "> Package `" +:+ basePkg +:+ "/" +:+ dir +:+ "`" +:+ nl +:+ nl
    +:+ fragment fs genOpts partDocTplS (displayName dir)
    +:+ "```go" +:+ nl.
Proof.
  unfold sectionHead, sectionTitle, fenceOpen. cbn [Sprintln].
  change (Sprintf (nl +:+ "> Package `%s`" +:+ nl +:+ nl) [basePkg +:+ "/" +:+ dir])
    with (nl +:+ "> Package `" +:+ (basePkg +:+ "/" +:+ dir) +:+ "`" +:+ nl +:+ nl).
  by rewrite !app_assoc.
Qed.

Lemma footOf_text (fs : string → option string) (genOpts : genOptsSt)
    (seen : list string) :
  footOf fs genOpts seen
  = match seen with
    | [] => ""
    | dir :: _ => "```" +:+ nl +:+ fragment fs genOpts partDocTplE dir
    end.
Proof.
  destruct seen as [|dir seen]; [done|].
  unfold footOf, sectionFoot, fenceClose. cbn [Sprintln]. by rewrite !app_assoc.
Qed.

Lemma renderSection_text (fs : string → option string) (genOpts : genOptsSt)
    (basePkg : string) (sec : string * list string) :
  renderSection fs genOpts basePkg sec
  = nl +:+ "### " +:+ UpperFirst (displayName sec.1) +:+ nl
    +:+ nl +:+ "> Package `" +:+ basePkg +:+ "/" +:+ sec.1 +:+ "`" +:+ nl +:+ nl
    +:+ fragment fs genOpts partDocTplS (displayName sec.1)
    +:+ "```go" +:+ nl
    +:+ cat (map (fileBlock fs) sec.2)
    +:+ "```" +:+ nl
    +:+ fragment fs genOpts partDocTplE sec.1.
Proof.
  unfold renderSection. rewrite sectionHead_text.
  pose proof (footOf_text fs genOpts [sec.1]) as Hfoot. simpl in Hfoot.
  rewrite Hfoot. by rewrite !app_assoc.
Qed.

(** C4. Fences.  On globbed paths the run can go through, the buffer is
    the sections one after the other, and a section is, byte for byte, its
    heading line and its package-path lines, its start fragment, the
    opening fence (three backquotes and [go] on a line), the lines of its
    files, the closing fence (three backquotes on a line) and its end
    fragment: the fence is opened before the content and closed once after
    it.  The lines of a file are a line that names the file and the
    trimmed matches, one on a line; a fragment is the content of its file
    and a line feed.  The sections hold all the candidate files, in order.
    The fence is closed where the next section opens, and the flush at the
    end of input closes the fence of the section that is open and appends
    its end fragment. *)
Theorem fence_invariant (fs : string → option string) (genOpts : genOptsSt)
    (basePkg : string) (ms : list string) (w : world) :
  Forall (λ f, loadable fs f = true) ms →
  let secs := (sections [] (List.filter candidate ms)).2 in
  (∃ w', collectPgkFunc fs genOpts ms basePkg w
         = (Done (cat (map (renderSection fs genOpts basePkg) secs)), w'))
  ∧ (∀ sec, renderSection fs genOpts basePkg sec
            = nl +:+ "### " +:+ UpperFirst (displayName sec.1) +:+ nl
              +:+ nl +:+ "> Package `" +:+ basePkg +:+ "/" +:+ sec.1 +:+ "`"
              +:+ nl +:+ nl
              +:+ fragment fs genOpts partDocTplS (displayName sec.1)
              +:+ "```go" +:+ nl
              +:+ cat (map (fileBlock fs) sec.2)
              +:+ "```" +:+ nl
              +:+ fragment fs genOpts partDocTplE sec.1)
  ∧ (∀ f, fileBlock fs f
          = let lines := FindAllString sigRe (default "" (fs f)) in
            if (0 <? length lines)%nat
            then "// source at " +:+ f +:+ nl
                 +:+ cat (map (λ m, TrimRight m "{ " +:+ nl) lines)
            else "")
  ∧ (∀ partNameTpl pkgName,
       fragment fs genOpts partNameTpl pkgName
       = let first := optional fs (fragmentPath genOpts partNameTpl pkgName
                                     (langSuffix genOpts)) in
         let second := optional fs (fragmentPath genOpts partNameTpl pkgName "") in
         if (0 <? String.length first)%nat then first +:+ nl
         else if (0 <? String.length second)%nat then second +:+ nl
         else "")
  ∧ concat (map snd secs) = List.filter candidate ms
  ∧ (∀ seen l f dir text,
       skipped f = false → dirOf f = Some dir → fs f = Some text →
       dir ∉ seen → tracks basePkg seen l →
       ∃ l' cs, emits (collectFile fs genOpts basePkg l f) l'
                  (match seen with
                   | [] => ""
                   | prev :: _ =>
                       "```" +:+ nl +:+ fragment fs genOpts partDocTplE prev
                   end
                   +:+ nl +:+ "### " +:+ UpperFirst (displayName dir) +:+ nl
                   +:+ nl +:+ "> Package `" +:+ basePkg +:+ "/" +:+ dir +:+ "`"
                   +:+ nl +:+ nl
                   +:+ fragment fs genOpts partDocTplS (displayName dir)
                   +:+ "```go" +:+ nl
                   +:+ fileBlock fs f) cs
                ∧ tracks basePkg (dir :: seen) l')
  ∧ (∀ seen dir l,
       tracks basePkg (dir :: seen) l →
       ∃ cs, emits (flush fs genOpts l) tt
               ("```" +:+ nl +:+ fragment fs genOpts partDocTplE dir) cs).
Proof.
  intros Hms secs. split; [|split; [|split; [|split; [|split; [|split]]]]].
  - destruct (collectPgkFunc_spec fs genOpts basePkg ms w Hms) as (w' & Hrun & _).
    eauto.
  - apply renderSection_text.
  - apply fileBlock_text.
  - intros partNameTpl pkgName. apply fragment_text.
  - pose proof (sections_partition [] (List.filter candidate ms)) as H.
    by rewrite sections_nil_run in H.
  - intros seen l f dir text Hskip Hd Hfs Hin Ht.
    destruct (collectFile_open fs genOpts basePkg _ _ _ _ _ Hskip Hd Hfs Hin Ht)
      as (l' & cs & He & _ & Ht').
    exists l', cs. split; [|done].
    eapply emits_eq; [apply He | done | | done].
    rewrite footOf_text, sectionHead_text. by rewrite !app_assoc.
  - intros seen dir l Ht.
    destruct (emits_close fs genOpts basePkg _ _ Ht) as (cs & He & _).
    exists cs. eapply emits_eq; [apply He | done | | done].
    by rewrite footOf_text.
Qed.

Lemma fence_invariant_witness :
  ∃ w', collectPgkFunc demoFs demoOpts demoGlob "base" demoWorld
        = (Done (unlines
             [ "";
               "### Array/Slice";
               "";
               "> Package `base/arrutil`";
               "";
               "```go";
               "// source at arrutil/arrutil.go";
               "func Reverse(ss []string)";
               "// source at arrutil/check.go";
               "func StringsHas(ss []string, val string) bool";
               "// source at arrutil/format.go";
               "func ToString(arr []any) string { return s }";
               "```";
               "#### ArrUtil Usage";
               "";
               "### Dump";
               "";
               "> Package `base/dump`";
               "";
               "Print variables.";
               "```go";
               "// source at dump/dump.go";
               "func Print(vs ...any)";
               "// source at dump/dumper.go";
               "func NewDumper(out io.Writer, skip int) *Dumper";
               "```" ]), w').
Proof.
  destruct (fence_invariant demoFs demoOpts "base" demoGlob demoWorld)
    as [[w' Hrun] _].
  - apply Forall_forall. intros f Hf.
    repeat (apply elem_of_cons in Hf as [->|Hf]; [by vm_compute|]).
    by apply elem_of_nil in Hf.
  - exists w'. rewrite Hrun. vm_compute. reflexivity.
Defined.

(** C1, the claim as it is worded, fails: on files whose package keys are
    A, A, B, B, A the output has two headings, not three. *)
Lemma package_keys_ABBA_two_headers :
  ∃ out w',
    collectPgkFunc demoFs demoOpts demoABBA "base" demoWorld = (Done out, w')
    ∧ map dirOf demoABBA
      = [Some "arrutil"; Some "arrutil"; Some "dump"; Some "dump"; Some "arrutil"]
    ∧ headerCount out = 2%nat.
Proof.
  eexists _, _. split; [by vm_compute|]. split; by vm_compute.
Qed.

(** C1, as the code has it.  On candidate files whose package keys are
    A, A, B, B, A the output is two sections, one for A and then one for B,
    each with its fence pair, and the lines of the fifth file are in the
    second.  A section is opened when the package key of a file has not
    occurred at an earlier file (so at the first file), not when it differs
    from the key of the file before. *)
Theorem section_boundaries (fs : string → option string) (genOpts : genOptsSt)
    (basePkg A B f1 f2 f3 f4 f5 : string) (w : world) :
  A ≠ B →
  Forall (λ f, skipped f = false ∧ is_Some (fs f)) [f1; f2; f3; f4; f5] →
  map dirOf [f1; f2; f3; f4; f5] = [Some A; Some A; Some B; Some B; Some A] →
  (∃ w', collectPgkFunc fs genOpts [f1; f2; f3; f4; f5] basePkg w
         = (Done (renderSection fs genOpts basePkg (A, [f1; f2])
                  +:+ renderSection fs genOpts basePkg (B, [f3; f4; f5])), w'))
  ∧ (∀ seen l f dir text,
       skipped f = false → dirOf f = Some dir → fs f = Some text →
       tracks basePkg seen l →
       ∃ l' cs, emits (collectFile fs genOpts basePkg l f) l'
                  ((if bool_decide (dir ∈ seen) then ""
                    else footOf fs genOpts seen
                         +:+ sectionHead fs genOpts basePkg dir)
                   +:+ fileBlock fs f) cs
                ∧ tracks basePkg
                    (if bool_decide (dir ∈ seen) then seen else dir :: seen) l').
Proof.
  intros HAB Hfiles Hdirs. split.
  - injection Hdirs as H1 H2 H3 H4 H5.
    assert (Forall (λ f, loadable fs f = true) [f1; f2; f3; f4; f5]) as Hms.
    { apply Forall_forall. intros f Hf. rewrite Forall_forall in Hfiles.
      destruct (Hfiles f Hf) as [Hskip Hfs]. unfold loadable. rewrite Hskip.
      simpl. apply andb_true_intro. split; apply bool_decide_eq_true; [|done].
      repeat (apply elem_of_cons in Hf as [->|Hf]; [eauto|]).
      by apply elem_of_nil in Hf. }
    destruct (collectPgkFunc_spec fs genOpts basePkg _ w Hms) as (w' & Hrun & _).
    exists w'. rewrite Hrun. do 2 f_equal.
    assert (List.filter candidate [f1; f2; f3; f4; f5] = [f1; f2; f3; f4; f5]) as ->.
    { repeat (apply Forall_cons in Hfiles as [[? _] Hfiles]).
      by rewrite !filter_candidate_keep. }
    cbn [sections]. rewrite H1, H2, H3, H4, H5. cbn [default].
    rewrite (bool_decide_eq_false_2 (A ∈ [])) by apply not_elem_of_nil.
    rewrite (bool_decide_eq_true_2 (A ∈ [A])) by left.
    rewrite (bool_decide_eq_false_2 (B ∈ [A]))
      by (by intros ->%list_elem_of_singleton).
    rewrite (bool_decide_eq_true_2 (B ∈ [B; A])) by left.
    rewrite (bool_decide_eq_true_2 (A ∈ [B; A])) by (right; left).
    simpl. by rewrite app_nil_r.
  - intros seen l f dir text Hskip Hd Hfs Ht. case_bool_decide as Hin.
    + destruct (collectFile_continue fs genOpts basePkg _ _ _ _ _ Hskip Hd Hfs Hin Ht)
        as (l' & He & Ht').
      eauto.
    + destruct (collectFile_open fs genOpts basePkg _ _ _ _ _ Hskip Hd Hfs Hin Ht)
        as (l' & cs & He & _ & Ht').
      exists l', cs. split; [|done].
      eapply emits_eq; [apply He | done | | done]. by rewrite !app_assoc.
Qed.

Lemma section_boundaries_witness :
  ∃ w', collectPgkFunc demoFs demoOpts demoABBA "base" demoWorld
        = (Done (renderSection demoFs demoOpts "base"
                   ("arrutil", ["arrutil/arrutil.go"; "arrutil/check.go"])
                 +:+ renderSection demoFs demoOpts "base"
                       ("dump", ["dump/dump.go"; "dump/dumper.go";
                                 "arrutil/format.go"])), w').
Proof.
  refine (proj1 (section_boundaries demoFs demoOpts "base" "arrutil" "dump"
    "arrutil/arrutil.go" "arrutil/check.go" "dump/dump.go" "dump/dumper.go"
    "arrutil/format.go" demoWorld _ _ _)).
  - done.
  - apply Forall_forall. intros f Hf.
    repeat (apply elem_of_cons in Hf as [->|Hf];
            [split; [by vm_compute | eexists; by vm_compute]|]).
    by apply elem_of_nil in Hf.
  - by vm_compute.
Defined.

(** C7. A missing fragment is not an error.  When neither the file of the
    configured language nor the file of the default language exists, the
    fragment is the empty text: [bufWriteDoc] looks both up, adds nothing
    and does not panic.  A section whose fragments are missing is still,
    byte for byte, its heading line and package-path lines, the opening
    fence, the lines of its files (for each file with a match, a line that
    names it and its trimmed matches, one on a line) and the closing
    fence, and the run returns the sections. *)
Theorem missing_fragment_no_error (fs : string → option string)
    (genOpts : genOptsSt) (basePkg : string) :
  (∀ partNameTpl pkgName,
     fs (fragmentPath genOpts partNameTpl pkgName (langSuffix genOpts)) = None →
     fs (fragmentPath genOpts partNameTpl pkgName "") = None →
     emits (bufWriteDoc fs genOpts partNameTpl pkgName) tt ""
       [ReadExist (fragmentPath genOpts partNameTpl pkgName (langSuffix genOpts));
        ReadExist (fragmentPath genOpts partNameTpl pkgName "")]
     ∧ fragment fs genOpts partNameTpl pkgName = "")
  ∧ (∀ dir files,
       fragment fs genOpts partDocTplS (displayName dir) = "" →
       fragment fs genOpts partDocTplE dir = "" →
       renderSection fs genOpts basePkg (dir, files)
       = nl +:+ "### " +:+ UpperFirst (displayName dir) +:+ nl
         +:+ nl +:+ "> Package `" +:+ basePkg +:+ "/" +:+ dir +:+ "`"
         +:+ nl +:+ nl
         +:+ "```go" +:+ nl
         +:+ cat (map (λ f,
                    let lines := FindAllString sigRe (default "" (fs f)) in
                    if (0 <? length lines)%nat
                    then "// source at " +:+ f +:+ nl
                         +:+ cat (map (λ m, TrimRight m "{ " +:+ nl) lines)
                    else "") files)
         +:+ "```" +:+ nl)
  ∧ (∀ ms w,
       Forall (λ f, loadable fs f = true) ms →
       ∃ w', collectPgkFunc fs genOpts ms basePkg w
             = (Done (cat (map (renderSection fs genOpts basePkg)
                             (sections [] (List.filter candidate ms)).2)), w')).
Proof.
  split; [|split].
  - intros partNameTpl pkgName E1 E2.
    pose proof (emits_bufWriteDoc fs genOpts partNameTpl pkgName) as H.
    unfold fragment, fragmentCalls, optional in *. rewrite E1, E2 in *.
    simpl in *. done.
  - intros dir files ES EE.
    rewrite renderSection_text. simpl fst. simpl snd. rewrite ES, EE.
    rewrite (map_ext _ _ (fileBlock_text fs)). by rewrite app_nil_r.
  - intros ms w Hms.
    destruct (collectPgkFunc_spec fs genOpts basePkg ms w Hms) as (w' & Hrun & _).
    eauto.
Qed.

Lemma missing_fragment_no_error_witness :
  ∃ w', collectPgkFunc
          (λ p, if String.eqb p "x/a.go"
                then Some (unlines ["package x"; "func Foo(a int) string {";
                                    "func bar(a int) {"])
                else None)
          demoOpts ["x/a.go"] "base" demoWorld
        = (Done (unlines
             [ "";
               "### X";
               "";
               "> Package `base/x`";
               "";
               "```go";
               "// source at x/a.go";
               "func Foo(a int) string";
               "```" ]), w').
Proof.
  set (fs := λ p, if String.eqb p "x/a.go"
                  then Some (unlines ["package x"; "func Foo(a int) string {";
                                      "func bar(a int) {"])
                  else None).
  destruct (missing_fragment_no_error fs demoOpts "base") as (Hfrag & Hsec & Hrun).
  destruct (Hrun ["x/a.go"] demoWorld) as [w' E].
  { constructor; [|constructor]. vm_compute. reflexivity. }
  exists w'. rewrite E.
  change ((sections [] (List.filter candidate ["x/a.go"])).2)
    with [("x", ["x/a.go"])].
  cbn [map cat]. rewrite Hsec.
  - vm_compute. reflexivity.
  - apply Hfrag; reflexivity.
  - apply Hfrag; reflexivity.
Defined.

End gendocSections.

(** * Further properties of the code *)

(** ** Substrings *)

Module containsFacts.
Import Str StrFacts strings stringsFacts.

(** Where [Index] finds [substr], it is there. *)
Lemma Index_found (s substr : string) :
  0 ≤ Index s substr →
  s = take (Z.to_nat (Index s substr)) s +:+ substr
      +:+ drop (Z.to_nat (Index s substr) + String.length substr) s.
Proof.
  induction s as [|c s IH].
  - rewrite Index_nil. destruct (HasPrefix "" substr) eqn:E; [|lia].
    intros _. by apply HasPrefix_inv in E.
  - rewrite Index_cons. destruct (HasPrefix (String c s) substr) eqn:E.
    + intros _. by apply HasPrefix_inv in E.
    + destruct (Z.ltb_spec (Index s substr) 0) as [|Hi]; [lia|]. intros _.
      replace (Z.to_nat (Index s substr + 1))
        with (S (Z.to_nat (Index s substr))) by lia.
      simpl. rewrite app_cons. f_equal. by apply IH.
Qed.

(** [Index] finds [substr] wherever it occurs. *)
Lemma Index_occurs (pre substr post : string) :
  0 ≤ Index (pre +:+ substr +:+ post) substr.
Proof.
  induction pre as [|c pre IH].
  - change ("" +:+ substr +:+ post) with (substr +:+ post).
    destruct (substr +:+ post) as [|b r] eqn:E.
    + apply app_eq_nil in E as [-> _]. done.
    + rewrite Index_cons, <- E, HasPrefix_app. done.
  - rewrite app_cons, Index_cons.
    destruct (HasPrefix _ substr); [done|].
    destruct (Z.ltb_spec (Index (pre +:+ substr +:+ post) substr) 0); lia.
Qed.

Lemma Contains_spec (s substr : string) :
  Contains s substr = true ↔ ∃ pre post, s = pre +:+ substr +:+ post.
Proof.
  unfold Contains. rewrite Z.leb_le. split.
  - intros H. eexists _, _. by apply Index_found.
  - intros (pre & post & ->). apply Index_occurs.
Qed.

Lemma Contains_false (s substr : string) :
  Contains s substr = false ↔ ¬ ∃ pre post, s = pre +:+ substr +:+ post.
Proof. by rewrite <- Contains_spec, not_true_iff_false. Qed.

End containsFacts.

(** ** envutil: operating system, colours, WSL *)

Module envutilSysFacts.
Import Str StrFacts strings stringsFacts containsFacts envutil envutilSys.

(** X1. Whatever [runtime.GOOS] is, [IsWindows] and [IsWin] agree, no two
    of [IsWin], [IsMac] and [IsLinux] hold together, and all are false on a
    system that is none of the three. *)
Theorem os_family_exclusive (GOOS : string) :
  IsWindows GOOS = IsWin GOOS
  ∧ IsWin GOOS && IsMac GOOS = false
  ∧ IsWin GOOS && IsLinux GOOS = false
  ∧ IsMac GOOS && IsLinux GOOS = false
  ∧ (GOOS ∉ ["windows"; "darwin"; "linux"] →
     IsWin GOOS = false ∧ IsMac GOOS = false ∧ IsLinux GOOS = false).
Proof.
  unfold IsWindows, IsWin, IsMac, IsLinux.
  split; [done|]. split; [|split; [|split]].
  - destruct (String.eqb_spec GOOS "windows") as [->|]; done.
  - destruct (String.eqb_spec GOOS "windows") as [->|]; done.
  - destruct (String.eqb_spec GOOS "darwin") as [->|]; done.
  - intros Hn. repeat split; apply String.eqb_neq; intros ->; apply Hn.
    + left.
    + right; left.
    + right; right; left.
Qed.

Lemma specialColorTerms_spec (t : string) :
  is_Some (specialColorTerms !! t) ↔ t = "alacritty".
Proof.
  unfold specialColorTerms. split.
  - intros [x Hx]. by apply lookup_singleton_Some in Hx as [-> _].
  - intros ->. by rewrite lookup_singleton_eq.
Qed.

(** X2. Basic colour support is reported exactly when [TERM] contains
    [xterm], or is [alacritty], or [ConEmuANSI] is [ON], or [ANSICON] is
    set and not empty, or [TERM] contains [256color], or [COLORTERM]
    contains [truecolor]. *)
Theorem color_support_conditions (env : gmap string string) :
  IsSupportColor env = true ↔
    (∃ pre post, Getenv env "TERM" = pre +:+ "xterm" +:+ post)
    ∨ Getenv env "TERM" = "alacritty"
    ∨ Getenv env "ConEmuANSI" = "ON"
    ∨ Getenv env "ANSICON" ≠ ""
    ∨ (∃ pre post, Getenv env "TERM" = pre +:+ "256color" +:+ post)
    ∨ (∃ pre post, Getenv env "COLORTERM" = pre +:+ "truecolor" +:+ post).
Proof.
  rewrite <- !Contains_spec. unfold IsSupportColor, IsSupport256Color,
    IsSupportTrueColor. cbv zeta.
  destruct (Contains (Getenv env "TERM") "xterm"); [by split; auto|].
  case_bool_decide as Hs; rewrite specialColorTerms_spec in Hs;
    [by split; auto|].
  destruct (String.eqb_spec (Getenv env "ConEmuANSI") "ON"); [by split; auto|].
  destruct (String.eqb_spec (Getenv env "ANSICON") ""); simpl;
    [|by split; auto 6].
  destruct (Contains (Getenv env "TERM") "256color"); simpl;
    [by split; auto 6|].
  split; [auto 7|]. intros [|[|[|[|[|]]]]]; done.
Qed.

Lemma HasPrefix_pad (s substr : string) (k : nat) :
  all (λ c, negb (Ascii.eqb c "000")) substr = true →
  HasPrefix (s +:+ zeros k) substr = HasPrefix s substr.
Proof.
  revert s; induction substr as [|a p IH]; intros s Hp.
  - by destruct s, (zeros k).
  - simpl in Hp. apply andb_prop in Hp as [Ha Hp]. destruct s as [|b s].
    + change ("" +:+ zeros k) with (zeros k). destruct k; [done|]. simpl.
      apply negb_true_iff in Ha. by rewrite Ha.
    + rewrite app_cons. simpl. by rewrite IH.
Qed.

Lemma Index_zeros (substr : string) (k : nat) :
  substr ≠ "" → all (λ c, negb (Ascii.eqb c "000")) substr = true →
  Index (zeros k) substr = -1.
Proof.
  intros Hne Hp. destruct substr as [|a p]; [done|].
  simpl in Hp. apply andb_prop in Hp as [Ha%negb_true_iff _].
  induction k as [|k IH]; [done|].
  simpl zeros. rewrite Index_cons, IH. simpl. by rewrite Ha.
Qed.

(** The zero bytes after the content of a buffer hide no occurrence. *)
Lemma Contains_pad (s substr : string) (k : nat) :
  substr ≠ "" → all (λ c, negb (Ascii.eqb c "000")) substr = true →
  Contains (s +:+ zeros k) substr = Contains s substr.
Proof.
  intros Hne Hp. unfold Contains. f_equal.
  induction s as [|c s IH].
  - change ("" +:+ zeros k) with (zeros k). rewrite Index_zeros by done.
    by destruct substr.
  - rewrite app_cons, !Index_cons, IH.
    by rewrite <- app_cons, HasPrefix_pad.
Qed.

(** X3. [IsWSL] is memoized.  Whatever the state, a call that follows a
    call returns the answer of that call and leaves the package variables
    as they are, whatever [/proc/version] holds by then; after any call
    [detectedWSL] is set. *)
Theorem IsWSL_memoized (first later : option string) (s : wslState) :
  IsWSL later (IsWSL first s).2 = IsWSL first s
  ∧ detectedWSL (IsWSL first s).2 = true.
Proof.
  unfold IsWSL. destruct (detectedWSL s) eqn:E; simpl.
  - by rewrite E.
  - done.
Qed.

(** X4. When [/proc/version] cannot be opened at the first call, the answer
    is false, and it stays false for the later calls also when the file can
    be read by then. *)
Theorem IsWSL_unreadable_stays_false (later : option string) :
  (IsWSL None wslInit).1 = false
  ∧ (IsWSL later (IsWSL None wslInit).2).1 = false.
Proof. split; by vm_compute. Qed.

(** X5. The first call looks at the first 1024 bytes of [/proc/version]
    only: it answers true exactly when [Microsoft] occurs within them. *)
Theorem IsWSL_first_1024_bytes (content : string) :
  (IsWSL (Some content) wslInit).1
  = Contains (take 1024 content) "Microsoft"
  ∧ ((IsWSL (Some content) wslInit).1 = true ↔
     ∃ pre post, take 1024 content = pre +:+ "Microsoft" +:+ post).
Proof.
  assert ((IsWSL (Some content) wslInit).1
          = Contains (take 1024 content) "Microsoft") as E.
  { unfold IsWSL, wslInit, readInto. cbn [detectedWSL negb detectedWSLContents fst].
    by apply Contains_pad. }
  split; [done|]. by rewrite E, Contains_spec.
Qed.

End envutilSysFacts.

(** ** timex: layouts, units, formatting *)

Module timexMoreFacts.
Import timex timexFormat.

Lemma wrap64_id (z : Z) : - 2 ^ 63 ≤ z < 2 ^ 63 → wrap64 z = z.
Proof.
  intros Hz. unfold wrap64. rewrite Z.mod_small; lia.
Qed.

Lemma wrap64_high (z : Z) : 2 ^ 63 ≤ z < 2 ^ 64 + 2 ^ 63 → wrap64 z = z - 2 ^ 64.
Proof.
  intros Hz. unfold wrap64.
  replace (z + 2 ^ 63) with ((z + 2 ^ 63 - 2 ^ 64) + 1 * 2 ^ 64) by lia.
  rewrite Z.mod_add by lia. rewrite Z.mod_small; lia.
Qed.

Section Layouts.
Context {T Zone : Type} `{!TimeAPI T Zone}.

Lemma alloc_lookup (v : TimeX T) (h : heap T) :
  (alloc v h).2 !! (alloc v h).1 = Some v.
Proof. unfold alloc. simpl. apply lookup_insert_eq. Qed.

(** X6. The helpers do not carry the layout over: whatever the layout of
    the receiver, the object that a helper returns has [DefaultLayout]. *)
Theorem helpers_reset_layout (m : helper) (t : positive) (v : TimeX T)
    (h : heap T) :
  h !! t = Some v →
  ∃ q h' v', call m t h = Some (q, h')
    ∧ h' !! q = Some v' ∧ Layout v' = DefaultLayout.
Proof.
  intros Ht.
  assert (∃ x, call m t h = Some (alloc x h) ∧ Layout x = DefaultLayout)
    as (x & Hc & Hx).
  { destruct m; simpl;
      unfold Yesterday, DayAgo, AddDay, Tomorrow, DayAfter, AddDay, AddHour,
        AddMinutes, AddSeconds, HourStart, HourEnd, DayStart, DayEnd,
        ChangeHMS, New;
      rewrite Ht; simpl; try destruct (Date (Time v)) as [[y mo] d];
      eexists; split; reflexivity. }
  exists (alloc x h).1, (alloc x h).2, x. rewrite Hc.
  split; [by destruct (alloc x h)|]. split; [apply alloc_lookup | done].
Qed.

(** X7. Days, hours, minutes and seconds agree: as long as the count of
    seconds fits the 64-bit [int], [AddDay(d)] is [AddHour(24*d)],
    [AddMinutes(1440*d)] and [AddSeconds(86400*d)], [DayAgo(d)] is
    [AddDay(-d)], [Yesterday] is [DayAgo(1)] and [Tomorrow] is
    [AddDay(1)]. *)
Theorem units_agree (t : positive) (day : Z) (h : heap T) :
  - 2 ^ 63 < day * 86400 < 2 ^ 63 →
  AddDay t day h = AddSeconds t (86400 * day) h
  ∧ AddHour t (24 * day) h = AddDay t day h
  ∧ AddMinutes t (1440 * day) h = AddDay t day h
  ∧ DayAfter t day h = AddSeconds t (86400 * day) h
  ∧ DayAgo t day h = AddDay t (- day) h
  ∧ Yesterday t h = DayAgo t 1 h
  ∧ Tomorrow t h = AddDay t 1 h.
Proof.
  intros Hd.
  assert (2 ^ 63 = 9223372036854775808) as E63 by reflexivity.
  unfold DayAfter, DayAgo, Yesterday, Tomorrow, AddDay, AddHour, AddMinutes,
    OneDaySec, OneHourSec, OneMinSec.
  rewrite (wrap64_id (day * 86400)), (wrap64_id (24 * day * 3600)),
    (wrap64_id (1440 * day * 60)), (wrap64_id (- day)),
    (wrap64_id (- day * 86400)) by lia.
  repeat split; try done; f_equal; first [lia | by vm_compute].
Qed.

(** X8. [AddSeconds] is exact up to about 292 years and wraps beyond: for
    a count of seconds between -9223372036 and 9223372036 the duration
    added is that many seconds, and for a count from 9223372037 to
    18446744073 the 64-bit [time.Duration] overflows and the duration added
    is negative. *)
Theorem AddSeconds_range (t : positive) (seconds : Z) (v : TimeX T)
    (h : heap T) :
  h !! t = Some v →
  (-9223372036 ≤ seconds ≤ 9223372036 →
   AddSeconds t seconds h
   = Some (alloc {| Time := Add (Time v) (seconds * 1000000000);
                    Layout := DefaultLayout |} h))
  ∧ (9223372037 ≤ seconds ≤ 18446744073 →
     AddSeconds t seconds h
     = Some (alloc {| Time := Add (Time v) (seconds * 1000000000 - 2 ^ 64);
                      Layout := DefaultLayout |} h)
     ∧ seconds * 1000000000 - 2 ^ 64 < 0).
Proof.
  intros Ht.
  assert (2 ^ 63 = 9223372036854775808) as E63 by reflexivity.
  assert (2 ^ 64 = 18446744073709551616) as E64 by reflexivity.
  unfold AddSeconds, Second. rewrite Ht. cbn [mbind option_bind]. split.
  - intros Hs. assert (- 2 ^ 63 ≤ seconds * 1000000000 < 2 ^ 63) as Hr by lia.
    by rewrite (wrap64_id _ Hr).
  - intros Hs.
    assert (2 ^ 63 ≤ seconds * 1000000000 < 2 ^ 64 + 2 ^ 63) as Hr by lia.
    rewrite (wrap64_high _ Hr). split; [done | lia].
Qed.

(** X9. [DayEnd] and [HourEnd] are [ChangeHMS] at the last second:
    [DayEnd()] is [ChangeHMS(23, 59, 59)] and [HourEnd()] is
    [ChangeHMS(t.Hour(), 59, 59)], and every time made by [ChangeHMS] is
    made by [time.Date] with 999999999 as its nanoseconds, whatever the
    hour, the minute and the second passed. *)
Theorem ends_are_ChangeHMS (t : positive) (v : TimeX T) (h : heap T)
    (hour min sec : Z) :
  h !! t = Some v →
  DayEnd t h = ChangeHMS t 23 59 59 h
  ∧ HourEnd t h = ChangeHMS t (Hour (Time v)) 59 59 h
  ∧ ChangeHMS t hour min sec h
    = Some (New (mkDate (Date (Time v)).1.1 (Date (Time v)).1.2
                   (Date (Time v)).2 hour min sec 999999999
                   (Location (Time v))) h).
Proof.
  intros Ht. unfold DayEnd, HourEnd, ChangeHMS. rewrite Ht. simpl.
  by destruct (Date (Time v)) as [[y mo] d].
Qed.

Section Formatting.
Variable FormatTime : T → string → string.

(** X10. [Format] ignores its argument on an object whose layout is empty,
    where it formats with [DefaultLayout]; on any other object it formats
    with the layout passed, not with the layout of the object.  [Datetime]
    formats with the layout of the object, and with [DefaultLayout] when
    that is empty. *)
Theorem Format_layout (t : positive) (v : TimeX T) (h : heap T)
    (layout : string) :
  h !! t = Some v →
  (Layout v = "" → Format FormatTime t layout h
                   = Some (FormatTime (Time v) DefaultLayout))
  ∧ (Layout v ≠ "" → Format FormatTime t layout h
                     = Some (FormatTime (Time v) layout))
  ∧ Datetime FormatTime t h
    = Some (FormatTime (Time v)
              (if String.eqb (Layout v) "" then DefaultLayout else Layout v)).
Proof.
  intros Ht. unfold Datetime, Format. rewrite Ht. simpl.
  by destruct (String.eqb_spec (Layout v) "") as [E|E].
Qed.

End Formatting.

Section Differences.
Variable Sub : T → T → Z.

(** X12. [SubUnix] and [DiffSec] give the same count of whole seconds, and
    the count is truncated toward zero: it has the sign of the difference,
    is never further from zero than the difference, and misses it by less
    than a second, so a difference of less than a second either way gives
    zero. *)
Theorem SubUnix_truncates (t : TimeX T) (u : T) :
  DiffSec Sub t u = SubUnix Sub t u
  ∧ Z.abs (SubUnix Sub t u) * 1000000000 ≤ Z.abs (Diff Sub t u)
  ∧ Z.abs (Diff Sub t u) < (Z.abs (SubUnix Sub t u) + 1) * 1000000000
  ∧ (0 ≤ Diff Sub t u → 0 ≤ SubUnix Sub t u)
  ∧ (Diff Sub t u ≤ 0 → SubUnix Sub t u ≤ 0)
  ∧ (Z.abs (Diff Sub t u) < 1000000000 → SubUnix Sub t u = 0).
Proof.
  unfold DiffSec, SubUnix, Diff, Second. set (d := Sub (Time t) u).
  split; [done|].
  pose proof (Z.quot_rem' d 1000000000) as Hqr.
  destruct (Z.le_ge_cases 0 d) as [Hd|Hd].
  - pose proof (Z.rem_bound_pos d 1000000000 Hd ltac:(lia)).
    repeat split; lia.
  - assert (- 1000000000 < Z.rem d 1000000000 ≤ 0).
    { pose proof (Z.rem_bound_pos (- d) 1000000000 ltac:(lia) ltac:(lia)) as Hr.
      rewrite Z.rem_opp_l in Hr by lia. lia. }
    repeat split; lia.
Qed.
End Differences.

End Layouts.

Lemma helpers_reset_layout_witness :
  ∃ q h' v', call CallTomorrow 1%positive sampleHeap = Some (q, h')
    ∧ h' !! q = Some v' ∧ Layout v' = DefaultLayout.
Proof.
  apply (helpers_reset_layout CallTomorrow 1%positive
           {| Time := (1700000000 * Second + 5, 3600); Layout := "Jan 2" |}).
  reflexivity.
Defined.

Lemma units_agree_witness :
  AddDay 1%positive 7 sampleHeap = AddSeconds 1%positive (86400 * 7) sampleHeap
  ∧ AddHour 1%positive (24 * 7) sampleHeap = AddDay 1%positive 7 sampleHeap.
Proof.
  destruct (units_agree 1%positive 7 sampleHeap) as (H1 & H2 & _); [lia|].
  split; [exact H1 | exact H2].
Defined.

Lemma AddSeconds_range_witness :
  AddSeconds 1%positive 9223372037 sampleHeap
  = Some (alloc {| Time := Add (1700000000 * Second + 5, 3600)
                             (9223372037 * 1000000000 - 2 ^ 64);
                   Layout := DefaultLayout |} sampleHeap).
Proof.
  destruct (AddSeconds_range 1%positive 9223372037
              {| Time := (1700000000 * Second + 5, 3600); Layout := "Jan 2" |}
              sampleHeap) as [_ H]; [reflexivity|].
  destruct H as [H _]; [lia|]. exact H.
Defined.

Lemma ends_are_ChangeHMS_witness :
  DayEnd 1%positive sampleHeap = ChangeHMS 1%positive 23 59 59 sampleHeap.
Proof.
  refine (proj1 (ends_are_ChangeHMS 1%positive
    {| Time := (1700000000 * Second + 5, 3600); Layout := "Jan 2" |}
    sampleHeap 0 0 0 _)).
  reflexivity.
Defined.

Lemma Format_layout_witness :
  Format (λ t layout, layout) 1%positive "15:04" sampleHeap = Some "15:04"
  ∧ Datetime (λ t layout, layout) 1%positive sampleHeap = Some "Jan 2".
Proof.
  destruct (Format_layout (λ t layout, layout) 1%positive
    {| Time := (1700000000 * Second + 5, 3600); Layout := "Jan 2" |}
    sampleHeap "15:04") as (_ & H2 & H3); [reflexivity|].
  split; [by apply H2 | exact H3].
Defined.


End timexMoreFacts.

(** ** The generator: when a run returns, and the package names *)

Module gendocNamesFacts.
Import Str StrFacts strings stringsFacts regexp gendoc gendocRun gendocNames.

Lemma alwaysPanics_bind_l {A B} (m : M A) (k : A → M B) :
  alwaysPanics m → alwaysPanics (m ≫= k).
Proof.
  intros Hm w. specialize (Hm w). rewrite run_bind.
  by destruct (m w) as [[a|] w1].
Qed.

Lemma alwaysPanics_bind_r {A B} (m : M A) (k : A → M B) :
  (∀ a, alwaysPanics (k a)) → alwaysPanics (m ≫= k).
Proof.
  intros Hk w. rewrite run_bind. destruct (m w) as [[a|] w1]; [apply Hk | done].
Qed.

Lemma keepsNames_bind {A B} (m : M A) (k : A → M B) :
  keepsNames m → (∀ a, keepsNames (k a)) → keepsNames (m ≫= k).
Proof.
  intros Hm Hk w. specialize (Hm w). rewrite run_bind.
  destruct (m w) as [[a|] w1]; simpl in *; [|done]. by rewrite Hk.
Qed.

Lemma keepsNames_ret {A} (a : A) : keepsNames (ret a).
Proof. done. Qed.

Lemma keepsNames_bufWrite (t : string) : keepsNames (bufWrite t).
Proof. done. Qed.

Lemma keepsNames_lines (lines : list string) (f : string → string) :
  keepsNames (forEach (λ _ line, bufWriteln [f line]) lines tt).
Proof.
  induction lines as [|x lines IH]; [done|]. simpl.
  apply keepsNames_bind; [done | by intros []].
Qed.

Lemma namesTo_ret {A} (a : A) : namesTo (ret a) id.
Proof. done. Qed.

Lemma namesTo_keeps {A} (m : M A) : keepsNames m → namesTo m id.
Proof. intros H w _. apply H. Qed.

Lemma namesTo_bind {A B} (m : M A) (k : A → M B) g1 g2 :
  namesTo m g1 → (∀ a, namesTo (k a) g2) → namesTo (m ≫= k) (g2 ∘ g1).
Proof.
  intros Hm Hk w. specialize (Hm w). rewrite run_bind.
  destruct (m w) as [[a|] w1]; simpl in *; [|done].
  intros Hn. rewrite (Hk a w1 Hn). by rewrite Hm.
Qed.

Section Names.
Variable fs : string → option string.
Variable genOpts : genOptsSt.
Variable basePkg : string.

Lemma keepsNames_MustReadFile (filePath : string) :
  keepsNames (MustReadFile fs filePath).
Proof.
  unfold MustReadFile. apply keepsNames_bind; [done|].
  intros _. by destruct (fs filePath).
Qed.

Lemma keepsNames_doWriteDoc2buf (filename : string) :
  keepsNames (doWriteDoc2buf fs genOpts filename).
Proof.
  unfold doWriteDoc2buf, ReadExistFile.
  apply keepsNames_bind; [by apply keepsNames_bind|].
  intros body. destruct (0 <? _)%nat; [|done].
  by apply keepsNames_bind.
Qed.

Lemma keepsNames_bufWriteDoc (partNameTpl pkgName : string) :
  keepsNames (bufWriteDoc fs genOpts partNameTpl pkgName).
Proof.
  unfold bufWriteDoc. cbv zeta.
  apply keepsNames_bind; [apply keepsNames_doWriteDoc2buf|].
  intros [|]; simpl; [done|].
  apply keepsNames_bind; [apply keepsNames_doWriteDoc2buf | done].
Qed.

Lemma alwaysPanics_MustReadFile (filePath : string) :
  fs filePath = None → alwaysPanics (MustReadFile fs filePath).
Proof.
  intros E. unfold MustReadFile. rewrite E.
  apply alwaysPanics_bind_r. by intros _ w.
Qed.

Lemma loadable_false (filename : string) :
  loadable fs filename = false ↔
  skipped filename = false ∧ (dirOf filename = None ∨ fs filename = None).
Proof.
  unfold loadable. rewrite orb_false_iff, andb_false_iff.
  rewrite !bool_decide_eq_false, <- !eq_None_not_Some. done.
Qed.

(** A path the run cannot go through stops it. *)
Lemma collectFile_unloadable (l : locals) (filename : string) :
  loadable fs filename = false →
  alwaysPanics (collectFile fs genOpts basePkg l filename).
Proof.
  intros [Hskip Hbad]%loadable_false.
  apply candidate_inv in Hskip as (H1 & H2 & H3).
  unfold collectFile. fold (dirOf filename). rewrite H1, H2.
  destruct (dirOf filename) as [dir|] eqn:Hd; [|by intros w].
  rewrite (H3 _ eq_refl). destruct Hbad as [|Hfs]; [done|].
  apply alwaysPanics_bind_r. intros _.
  apply alwaysPanics_bind_r. intros l'.
  by apply alwaysPanics_bind_l, alwaysPanics_MustReadFile.
Qed.

Lemma loop_unloadable (ms : list string) (l : locals) :
  ¬ Forall (λ f, loadable fs f = true) ms →
  alwaysPanics (forEach (collectFile fs genOpts basePkg) ms l).
Proof.
  revert l; induction ms as [|f ms IH]; intros l Hbad.
  - exfalso. apply Hbad. constructor.
  - simpl. destruct (loadable fs f) eqn:Hf.
    + apply alwaysPanics_bind_r. intros l'. apply IH.
      intros Hms. apply Hbad. by constructor.
    + by apply alwaysPanics_bind_l, collectFile_unloadable.
Qed.

(** X13. [collectPgkFunc] returns exactly when every path is one the run
    can go through: it panics as soon as a path that is not passed over has
    no slash (the slice [filename[:idx]] is out of range) or cannot be
    read, and on no other input. *)
Theorem collectPgkFunc_returns_iff (ms : list string) (w : world) :
  ((collectPgkFunc fs genOpts ms basePkg w).1 ≠ Panic ↔
   Forall (λ f, loadable fs f = true) ms)
  ∧ (∀ f, loadable fs f = true ↔
       skipped f = true ∨ (is_Some (dirOf f) ∧ is_Some (fs f))).
Proof.
  split.
  - split.
    + intros Hrun. destruct (decide (Forall (λ f, loadable fs f = true) ms))
        as [|Hbad]; [done|].
      exfalso. apply Hrun. unfold collectPgkFunc.
      apply alwaysPanics_bind_r. intros _.
      by apply alwaysPanics_bind_l, loop_unloadable.
    + intros Hms.
      destruct (collectPgkFunc_spec fs genOpts basePkg ms w Hms) as (w' & E & _).
      by rewrite E.
  - intros f. unfold loadable.
    rewrite orb_true_iff, andb_true_iff, !bool_decide_eq_true. done.
Qed.

Lemma collectFile_names (l : locals) (filename : string) (w : world) :
  pkgNames (collectFile fs genOpts basePkg l filename w).2
  = noteName basePkg (pkgNames w) filename.
Proof.
  unfold noteName, candidate, skipped, collectFile. fold (dirOf filename).
  destruct (strings.HasSuffix filename "_test.go"); [done|].
  destruct (strings.HasSuffix filename "_windows.go"); [done|].
  destruct (dirOf filename) as [dir|]; [|done]. simpl.
  destruct (StringsHas hidden dir); [done|]. simpl.
  rewrite run_bind. unfold setPkgName. cbv iota beta.
  match goal with |- pkgNames (?m ?w0).2 = _ =>
    assert (keepsNames m) as Hk; [|rewrite Hk; reflexivity] end.
  apply keepsNames_bind.
  - destruct (pkgFuncs l !! _); [done|].
    apply keepsNames_bind.
    + destruct (0 <? _)%nat; [|done].
      apply keepsNames_bind; [done | intros _; apply keepsNames_bufWriteDoc].
    + intros _. cbv zeta.
      apply keepsNames_bind; [done|]. intros _.
      apply keepsNames_bind; [done|]. intros _.
      apply keepsNames_bind; [apply keepsNames_bufWriteDoc|]. intros _.
      by apply keepsNames_bind.
  - intros l'. apply keepsNames_bind; [apply keepsNames_MustReadFile|].
    intros text. cbv zeta. apply keepsNames_bind; [|done].
    destruct (0 <? _)%nat; [|done].
    apply keepsNames_bind; [done | intros _; apply keepsNames_lines].
Qed.

Lemma loop_names (ms : list string) (l : locals) :
  namesTo (forEach (collectFile fs genOpts basePkg) ms l)
    (λ names, foldl (noteName basePkg) names ms).
Proof.
  revert l; induction ms as [|f ms IH]; intros l; [done|].
  simpl. intros w. rewrite run_bind.
  pose proof (collectFile_names l f w) as Hf.
  destruct (collectFile fs genOpts basePkg l f w) as [[l'|] w1]; [|done].
  intros Hn. rewrite (IH l' w1 Hn). simpl in Hf. by rewrite Hf.
Qed.

Lemma candidateDirs_cons (f : string) (ms : list string) :
  candidateDirs (f :: ms)
  = (if candidate f then option_list (dirOf f) else []) ++ candidateDirs ms.
Proof.
  unfold candidateDirs. simpl. destruct (candidate f); [|done].
  simpl. by destruct (dirOf f).
Qed.

Lemma noteName_lookup (names : gmap string string) (ms : list string)
    (d : string) :
  foldl (noteName basePkg) names ms !! d
  = if bool_decide (d ∈ candidateDirs ms)
    then Some (basePkg +:+ "/" +:+ d) else names !! d.
Proof.
  revert names; induction ms as [|f ms IH]; intros names.
  - rewrite bool_decide_eq_false_2; [done|]. apply not_elem_of_nil.
  - cbn [foldl]. rewrite IH, candidateDirs_cons. unfold noteName.
    destruct (candidate f); simpl; [|done].
    destruct (dirOf f) as [dir|]; simpl; [|done].
    destruct (decide (d = dir)) as [->|Hne].
    + rewrite lookup_insert_eq.
      rewrite (bool_decide_eq_true_2 (dir ∈ dir :: _)) by left.
      by case_bool_decide.
    + rewrite lookup_insert_ne by done.
      case_bool_decide as H1; case_bool_decide as H2; try done.
      * exfalso. apply H2. by right.
      * exfalso. by apply elem_of_cons in H2 as [|].
Qed.

Lemma candidateDirs_not_hidden (ms : list string) (d : string) :
  d ∈ candidateDirs ms → d ∉ hidden.
Proof.
  unfold candidateDirs. intros (f & Hf & Hd)%list_elem_of_omap.
  apply list_elem_of_In, filter_In in Hf as [_ Hc].
  unfold candidate in Hc. apply negb_true_iff, candidate_inv in Hc as (_ & _ & H).
  specialize (H _ Hd). by apply bool_decide_eq_false in H.
Qed.

(** X14. When [collectPgkFunc] returns, [pkgNames] maps the subdirectory of
    every candidate file to the base package path followed by a slash and
    the subdirectory, and its other entries are as before; a hidden
    package gets no entry. *)
Theorem pkgNames_after_run (ms : list string) (w w' : world) (out : string) :
  collectPgkFunc fs genOpts ms basePkg w = (Done out, w') →
  (∀ d, pkgNames w' !! d
        = if bool_decide (d ∈ candidateDirs ms)
          then Some (basePkg +:+ "/" +:+ d) else pkgNames w !! d)
  ∧ (∀ d, d ∈ hidden → pkgNames w' !! d = pkgNames w !! d).
Proof.
  intros Hrun.
  assert (pkgNames w' = foldl (noteName basePkg) (pkgNames w) ms) as Hn.
  { assert (namesTo (collectPgkFunc fs genOpts ms basePkg)
              (λ names, foldl (noteName basePkg) names ms)) as H.
    { unfold collectPgkFunc.
      apply (namesTo_bind _ _ id); [by apply namesTo_keeps|]. intros _.
      apply (namesTo_bind _ _ _ id); [apply loop_names|]. intros l.
      apply (namesTo_bind _ _ id id); [|by intros _; apply namesTo_keeps].
      apply namesTo_keeps. unfold flush. destruct (0 <? _)%nat; [|done].
      apply keepsNames_bind; [done | intros _; apply keepsNames_bufWriteDoc]. }
    specialize (H w). rewrite Hrun in H. by apply H. }
  assert (∀ d, pkgNames w' !! d
        = if bool_decide (d ∈ candidateDirs ms)
          then Some (basePkg +:+ "/" +:+ d) else pkgNames w !! d) as Hl.
  { intros d. rewrite Hn. apply noteName_lookup. }
  split; [done|]. intros d Hd. rewrite Hl.
  rewrite bool_decide_eq_false_2; [done|].
  intros Hc. by apply candidateDirs_not_hidden in Hc.
Qed.

End Names.

Lemma pkgNames_after_run_witness :
  pkgNames (collectPgkFunc demoFs demoOpts demoGlob "base" demoWorld).2
    !! "dump" = Some "base/dump"
  ∧ pkgNames (collectPgkFunc demoFs demoOpts demoGlob "base" demoWorld).2
    !! "internal" = None.
Proof.
  pose proof (pkgNames_after_run demoFs demoOpts "base" demoGlob demoWorld
    (collectPgkFunc demoFs demoOpts demoGlob "base" demoWorld).2
    (match (collectPgkFunc demoFs demoOpts demoGlob "base" demoWorld).1 with
     | Done out => out | Panic => EmptyString end) ltac:(by vm_compute))
    as [H1 H2].
  split.
  - exact (H1 "dump").
  - apply (H2 "internal"). unfold hidden. do 2 right. left.
Defined.

End gendocNamesFacts.

(** ** The generator: the template and the fragment files *)

Module gendocTemplateFacts.
Import Str StrFacts strings stringsFacts regexp gendoc gendocRun.

Lemma Replace1_none (s old new : string) :
  occurrences old s = [] → Replace1 s old new = s.
Proof. intros E. unfold Replace1. by rewrite Index_occurrences, E. Qed.

Lemma Replace1_first (pre old post new : string) :
  head (occurrences old (pre +:+ old +:+ post)) = Some (String.length pre) →
  Replace1 (pre +:+ old +:+ post) old new = pre +:+ new +:+ post.
Proof.
  intros Hhd. unfold Replace1. rewrite Index_occurrences.
  destruct (occurrences old (pre +:+ old +:+ post)) as [|i l]; [done|].
  injection Hhd as ->.
  destruct (Z.ltb_spec (Z.of_nat (String.length pre)) 0); [lia|].
  rewrite Nat2Z.id, take_app_length, <- drop_drop, drop_app_length.
  by rewrite drop_app_length.
Qed.

Lemma main_with_template (fs : string → option string) (genOpts : genOptsSt)
    (pathJoin : string → string → string) (ms : list string)
    (tpl body : string) (w w' : world) :
  tplDir genOpts ≠ "" →
  fs (tplFilepath genOpts pathJoin "") = Some tpl →
  collectPgkFunc fs genOpts ms "github.com/gookit/goutil"
    (logged (MustRead (tplFilepath genOpts pathJoin "")) w) = (Done body, w') →
  main fs genOpts pathJoin ms w = (Done (render tpl body), w').
Proof.
  intros Hdir Hfs Hrun. unfold main.
  destruct (String.eqb_spec (tplDir genOpts) "") as [|_]; [done|]. simpl negb.
  rewrite run_bind. unfold MustReadFile at 1. rewrite Hfs, run_bind.
  change (logCall ?c w) with (Done (), logged c w). cbv iota beta.
  change (ret ?x ?w0) with (Done x, w0). cbv iota beta.
  by rewrite run_bind, Hrun.
Qed.

(** X15. A template that has content and does not hold the token
    [{{pgkFuncs}}] is written as it is: the collected body is computed and
    then left out of the output. *)
Theorem template_without_token (fs : string → option string)
    (genOpts : genOptsSt) (pathJoin : string → string → string)
    (ms : list string) (tpl body : string) (w w' : world) :
  tplDir genOpts ≠ "" →
  fs (tplFilepath genOpts pathJoin "") = Some tpl → tpl ≠ "" →
  occurrences "{{pgkFuncs}}" tpl = [] →
  collectPgkFunc fs genOpts ms "github.com/gookit/goutil"
    (logged (MustRead (tplFilepath genOpts pathJoin "")) w) = (Done body, w') →
  render tpl body = tpl
  ∧ main fs genOpts pathJoin ms w = (Done tpl, w').
Proof.
  intros Hdir Hfs Htpl Hocc Hrun.
  assert (render tpl body = tpl) as Hr.
  { unfold render. destruct tpl; [done|]. simpl Nat.ltb.
    by apply Replace1_none. }
  split; [done|].
  pose proof (main_with_template fs genOpts pathJoin ms tpl body w w'
                Hdir Hfs Hrun) as Hm.
  by rewrite Hr in Hm.
Qed.

Lemma template_without_token_witness :
  (main (λ p, if String.eqb p "tpl/README.zh-CN.md.tpl"
              then Some "# GoUtil" else demoFs p)
        demoOpts demoJoin demoGlob demoWorld).1 = Done "# GoUtil".
Proof.
  set (fs := λ p, if String.eqb p "tpl/README.zh-CN.md.tpl"
                  then Some "# GoUtil" else demoFs p).
  pose proof (template_without_token fs demoOpts demoJoin demoGlob "# GoUtil"
    (match (collectPgkFunc fs demoOpts demoGlob "github.com/gookit/goutil"
              (logged (MustRead "tpl/README.zh-CN.md.tpl") demoWorld)).1 with
     | Done out => out | Panic => EmptyString end)
    demoWorld
    (collectPgkFunc fs demoOpts demoGlob "github.com/gookit/goutil"
       (logged (MustRead "tpl/README.zh-CN.md.tpl") demoWorld)).2) as H.
  destruct H as [_ H]; [by vm_compute..|].
  by rewrite H.
Defined.

(** X16. Only the first token is replaced.  When the first occurrence of
    [{{pgkFuncs}}] in the template is right after [pre], what is written is
    [pre], the body, and the rest of the template as it is, with every
    later token still in it. *)
Theorem only_first_token_replaced (pre post body : string) :
  head (occurrences "{{pgkFuncs}}" (pre +:+ "{{pgkFuncs}}" +:+ post))
    = Some (String.length pre) →
  render (pre +:+ "{{pgkFuncs}}" +:+ post) body = pre +:+ body +:+ post.
Proof.
  intros Hhd. unfold render. rewrite !length_app. simpl String.length.
  destruct (Nat.ltb_spec 0 (String.length pre + (12 + String.length post))); [|lia].
  by apply Replace1_first.
Qed.

Lemma only_first_token_replaced_witness :
  render "a{{pgkFuncs}}b{{pgkFuncs}}c" "BODY" = "aBODYb{{pgkFuncs}}c".
Proof.
  apply (only_first_token_replaced "a" "b{{pgkFuncs}}c" "BODY").
  reflexivity.
Defined.

Lemma main_missing_template (fs : string → option string)
    (genOpts : genOptsSt) (pathJoin : string → string → string)
    (ms : list string) (w : world) :
  tplDir genOpts ≠ "" → fs (tplFilepath genOpts pathJoin "") = None →
  main fs genOpts pathJoin ms w
  = (Panic, logged (MustRead (tplFilepath genOpts pathJoin "")) w).
Proof.
  intros Hdir Hfs. unfold main.
  destruct (String.eqb_spec (tplDir genOpts) "") as [|_]; [done|]. simpl negb.
  rewrite run_bind. unfold MustReadFile at 1. by rewrite Hfs, run_bind.
Qed.



Lemma tplFilename_other (genOpts : genOptsSt) :
  lang genOpts ≠ "en" →
  tplFilename genOpts = "README." +:+ lang genOpts +:+ ".md.tpl".
Proof.
  intros H. unfold tplFilename.
  by destruct (String.eqb_spec (lang genOpts) "en").
Qed.

(** X18. The name of the template file tells the language: two
    configurations with the same template file name have the same
    language, and only the default language uses [README.md.tpl]. *)
Theorem tplFilename_injective (o1 o2 : genOptsSt) :
  (tplFilename o1 = tplFilename o2 ↔ lang o1 = lang o2)
  ∧ (tplFilename o1 = "README.md.tpl" ↔ lang o1 = "en").
Proof.
  assert (∀ o, tplFilename o = "README.md.tpl" ↔ lang o = "en") as Hen.
  { intros o. split.
    - intros E. destruct (decide (lang o = "en")) as [|Hne]; [done|].
      rewrite (tplFilename_other o Hne) in E. exfalso.
      apply (f_equal String.length) in E. rewrite !length_app in E.
      simpl in E. lia.
    - intros E. unfold tplFilename. by rewrite E. }
  split; [|apply Hen]. split.
  - intros E.
    destruct (decide (lang o1 = "en")) as [E1|N1];
      destruct (decide (lang o2 = "en")) as [E2|N2].
    + congruence.
    + exfalso. apply N2, Hen. rewrite <- E. by apply Hen.
    + exfalso. apply N1, Hen. rewrite E. by apply Hen.
    + rewrite (tplFilename_other o1 N1), (tplFilename_other o2 N2) in E.
      apply (app_inv_head "README.") in E. by apply app_inv_tail in E.
  - intros E. unfold tplFilename. by rewrite E.
Qed.

Section Fragments.
Variable fs : string → option string.
Variable genOpts : genOptsSt.

(** X19. With the default language the file of the language and the file
    of the fallback are one path: a fragment that is absent or empty is
    looked up twice at that path, and nothing is written. *)
Theorem default_language_looks_up_twice (partNameTpl pkgName : string) :
  lang genOpts = "en" →
  optional fs (fragmentPath genOpts partNameTpl pkgName "") = "" →
  emits (bufWriteDoc fs genOpts partNameTpl pkgName) tt ""
    [ReadExist (fragmentPath genOpts partNameTpl pkgName "");
     ReadExist (fragmentPath genOpts partNameTpl pkgName "")].
Proof.
  intros Hlang Hopt.
  pose proof (emits_bufWriteDoc fs genOpts partNameTpl pkgName) as H.
  unfold fragment, fragmentCalls in H.
  assert (langSuffix genOpts = "") as Hsuf.
  { unfold langSuffix. by rewrite Hlang. }
  rewrite Hsuf, Hopt in H. exact H.
Qed.

(** X20. A file of the configured language that exists and is empty counts
    as missing: the file of the default language is looked up after it and
    its content is written. *)
Theorem empty_fragment_falls_back (partNameTpl pkgName body : string) :
  fs (fragmentPath genOpts partNameTpl pkgName (langSuffix genOpts)) = Some "" →
  fs (fragmentPath genOpts partNameTpl pkgName "") = Some body →
  emits (bufWriteDoc fs genOpts partNameTpl pkgName) tt
    (if String.eqb body "" then "" else body +:+ nl)
    [ReadExist (fragmentPath genOpts partNameTpl pkgName (langSuffix genOpts));
     ReadExist (fragmentPath genOpts partNameTpl pkgName "")].
Proof.
  intros E1 E2.
  pose proof (emits_bufWriteDoc fs genOpts partNameTpl pkgName) as H.
  unfold fragment, fragmentCalls, optional in H. rewrite E1, E2 in H.
  simpl in H. by destruct body.
Qed.

(** X21. The two naming templates overlap: the end fragment of a package
    whose name ends in [-s] is the file of the start fragment of the name
    without that ending. *)
Theorem fragment_names_overlap (pkgName suffix : string) :
  fragmentPath genOpts partDocTplE (pkgName +:+ "-s") suffix
  = fragmentPath genOpts partDocTplS pkgName suffix.
Proof.
  unfold fragmentPath. f_equal. f_equal.
  change (Sprintf partDocTplE [pkgName +:+ "-s"; suffix])
    with ("part-" +:+ (pkgName +:+ "-s") +:+ suffix +:+ ".md").
  change (Sprintf partDocTplS [pkgName; suffix])
    with ("part-" +:+ pkgName +:+ "-s" +:+ suffix +:+ ".md").
  by rewrite !app_assoc.
Qed.

End Fragments.

Lemma default_language_looks_up_twice_witness :
  emits (bufWriteDoc demoFs
           {| lang := "en"; output := "stdout"; template := ""; tplDir := "tpl" |}
           partDocTplS "dump") tt ""
    [ReadExist "tpl/part-dump-s.md"; ReadExist "tpl/part-dump-s.md"].
Proof.
  apply (default_language_looks_up_twice demoFs
    {| lang := "en"; output := "stdout"; template := ""; tplDir := "tpl" |}
    partDocTplS "dump"); by vm_compute.
Defined.

Lemma empty_fragment_falls_back_witness :
  emits (bufWriteDoc (λ p, if String.eqb p "tpl/part-arrutil.zh-CN.md"
                           then Some EmptyString else demoFs p)
           demoOpts partDocTplE "arrutil") tt ("#### ArrUtil Usage" +:+ nl)
    [ReadExist "tpl/part-arrutil.zh-CN.md"; ReadExist "tpl/part-arrutil.md"].
Proof.
  apply (empty_fragment_falls_back
    (λ p, if String.eqb p "tpl/part-arrutil.zh-CN.md"
          then Some EmptyString else demoFs p)
    demoOpts partDocTplE "arrutil" "#### ArrUtil Usage"); by vm_compute.
Defined.

End gendocTemplateFacts.

(** ** The generator: one section for each package, and the order of the
    file-system calls *)

Module gendocSectionFacts.
Import Str StrFacts strings stringsFacts regexp gendoc gendocRun gendocNames.

#[local] Opaque emits.

Lemma sections_dirs (files : list string) :
  ∀ seen, Forall (λ f, is_Some (dirOf f)) files →
    NoDup ((sections seen files).2).*1
    ∧ (∀ d, d ∈ ((sections seen files).2).*1 ↔ d ∈ omap dirOf files ∧ d ∉ seen)
    ∧ sublist ((sections seen files).2).*1 (omap dirOf files)
    ∧ Forall (λ sec, ∃ f rest, sec.2 = f :: rest ∧ dirOf f = Some sec.1)
        (sections seen files).2.
Proof.
  induction files as [|f files IH]; intros seen Hd.
  - simpl. split; [constructor|]. split; [|split; [constructor | constructor]].
    intros d. split.
    + intros H. by apply elem_of_nil in H.
    + intros [H _]. by apply elem_of_nil in H.
  - apply Forall_cons in Hd as [[dir Hdir] Hd].
    assert (omap dirOf (f :: files) = dir :: omap dirOf files) as ->.
    { simpl. by rewrite Hdir. }
    destruct (decide (dir ∈ seen)) as [Hin|Hin].
    + rewrite (sections_seen _ _ _ _ Hdir Hin). simpl.
      destruct (IH seen Hd) as (H1 & H2 & H3 & H4).
      split; [done|]. split; [|split; [by apply sublist_cons | done]].
      intros d. rewrite H2, elem_of_cons. split.
      * intros [? ?]. split; [by right | done].
      * intros [[->|?] ?]; done.
    + rewrite (sections_new _ _ _ _ Hdir Hin). simpl.
      destruct (IH (dir :: seen) Hd) as (H1 & H2 & H3 & H4).
      split; [|split; [|split]].
      * constructor; [|done]. rewrite H2. intros [_ Hn]. apply Hn. left.
      * intros d. rewrite !elem_of_cons, H2. split.
        -- intros [->|[Hd' Hn]]; [split; [by left | done]|].
           split; [by right|]. intros ?. apply Hn. by right.
        -- intros [[->|Hd'] Hn]; [by left|].
           destruct (decide (d = dir)) as [->|Hne]; [by left|]. right.
           split; [done|]. by intros [?|?]%elem_of_cons.
      * by apply sublist_skip.
      * constructor; [|done]. simpl. eauto.
Qed.

Lemma filter_filter_ext (P Q R : string → bool) (l : list string) :
  (∀ x, R x = P x && Q x) →
  List.filter P (List.filter Q l) = List.filter R l.
Proof.
  intros H. induction l as [|x l IH]; [done|]. simpl. rewrite H.
  destruct (Q x); simpl.
  - rewrite IH. by destruct (P x).
  - by rewrite andb_false_r.
Qed.

Lemma filter_all (P : string → bool) (l : list string) :
  (∀ x, P x = true) → List.filter P l = l.
Proof.
  intros H. induction l as [|x l IH]; [done|]. simpl. by rewrite H, IH.
Qed.

(** The packages of the sections are the subdirectories that are not seen
    yet, each where it first occurs. *)
Lemma sections_firsts (files : list string) :
  ∀ seen, Forall (λ f, is_Some (dirOf f)) files →
    ((sections seen files).2).*1
    = List.filter (λ d, negb (bool_decide (d ∈ seen)))
        (firstOccurrences (omap dirOf files)).
Proof.
  induction files as [|f files IH]; intros seen Hd; [done|].
  apply Forall_cons in Hd as [[dir Hdir] Hd].
  assert (omap dirOf (f :: files) = dir :: omap dirOf files) as ->.
  { simpl. by rewrite Hdir. }
  cbn [firstOccurrences List.filter].
  destruct (decide (dir ∈ seen)) as [Hin|Hin].
  - rewrite (sections_seen _ _ _ _ Hdir Hin). cbn [snd].
    rewrite (bool_decide_eq_true_2 _ Hin). cbn [negb].
    rewrite (IH seen Hd). symmetry. apply filter_filter_ext.
    intros x. case_bool_decide as Hx; [done|]. simpl.
    destruct (String.eqb_spec x dir) as [->|]; done.
  - rewrite (sections_new _ _ _ _ Hdir Hin). cbn [snd fmap list_fmap fst].
    rewrite (bool_decide_eq_false_2 _ Hin). cbn [negb]. f_equal.
    rewrite (IH (dir :: seen) Hd). symmetry. apply filter_filter_ext.
    intros x. destruct (String.eqb_spec x dir) as [->|Hne].
    + rewrite bool_decide_eq_true_2 by left. by rewrite andb_false_r.
    + rewrite andb_true_r. f_equal. apply bool_decide_ext.
      rewrite elem_of_cons. split; [by intros [?|?] | by right].
Qed.

Section Sections.
Variable fs : string → option string.
Variable genOpts : genOptsSt.
Variable basePkg : string.

Lemma candidates_have_dir (ms : list string) :
  Forall (λ f, loadable fs f = true) ms →
  Forall (λ f, is_Some (dirOf f)) (List.filter candidate ms).
Proof.
  intros Hms. apply Forall_forall. intros f Hf.
  apply list_elem_of_In, filter_In in Hf as [Hf Hc].
  apply list_elem_of_In in Hf. rewrite Forall_forall in Hms.
  unfold candidate in Hc. apply negb_true_iff in Hc.
  destruct (loadable_inv fs _ (Hms f Hf) Hc) as (dir & _ & Hd & _). eauto.
Qed.

(** X22. One section for each package.  On globbed paths the run can go
    through, the packages of the sections of the output are exactly the
    subdirectories of the candidate files, each once, in the order in
    which they first occur; so the sections have pairwise different
    packages; and the first file of a section is of the package of the
    section. *)
Theorem one_section_per_package (ms : list string) (w : world) :
  Forall (λ f, loadable fs f = true) ms →
  let secs := (sections [] (List.filter candidate ms)).2 in
  (∃ w', collectPgkFunc fs genOpts ms basePkg w
         = (Done (cat (map (renderSection fs genOpts basePkg) secs)), w'))
  ∧ secs.*1 = firstOccurrences (candidateDirs ms)
  ∧ NoDup secs.*1
  ∧ (∀ d, d ∈ secs.*1 ↔ d ∈ candidateDirs ms)
  ∧ sublist secs.*1 (candidateDirs ms)
  ∧ Forall (λ sec, ∃ f rest, sec.2 = f :: rest ∧ dirOf f = Some sec.1) secs.
Proof.
  intros Hms secs.
  destruct (sections_dirs _ [] (candidates_have_dir ms Hms))
    as (H1 & H2 & H3 & H4).
  split; [|split; [|split; [done|split; [|done]]]].
  - destruct (collectPgkFunc_spec fs genOpts basePkg ms w Hms) as (w' & Hrun & _).
    eauto.
  - unfold secs, candidateDirs.
    rewrite (sections_firsts _ [] (candidates_have_dir ms Hms)).
    apply filter_all. intros x.
    by rewrite bool_decide_eq_false_2 by apply not_elem_of_nil.
  - intros d. unfold secs, candidateDirs. rewrite H2. split; [by intros [? _]|].
    intros ?. split; [done | apply not_elem_of_nil].
Qed.

(** X23. A file without a match still counts for its package.  A section
    whose files all yield no match is its head and its foot with nothing
    between the fences, and a run on one such candidate file writes its
    heading, its fragments and an empty code block. *)
Theorem file_without_signatures (f dir text : string) (w : world) :
  skipped f = false → dirOf f = Some dir → fs f = Some text →
  FindAllString sigRe text = [] →
  fileBlock fs f = ""
  ∧ (∃ w', collectPgkFunc fs genOpts [f] basePkg w
           = (Done (sectionTitle basePkg dir
                    +:+ fragment fs genOpts partDocTplS (displayName dir)
                    +:+ Sprintln ["```go"] +:+ Sprintln ["```"]
                    +:+ fragment fs genOpts partDocTplE dir), w')).
Proof.
  intros Hskip Hd Hfs Hno.
  assert (fileBlock fs f = "") as Hblock.
  { unfold fileBlock. rewrite Hfs. simpl default. by rewrite Hno. }
  split; [done|].
  assert (Forall (λ f, loadable fs f = true) [f]) as Hms.
  { constructor; [|constructor]. unfold loadable. rewrite Hskip, Hd, Hfs.
    by rewrite !bool_decide_eq_true_2 by eauto. }
  destruct (collectPgkFunc_spec fs genOpts basePkg [f] w Hms) as (w' & Hrun & _).
  exists w'. rewrite Hrun. do 2 f_equal.
  rewrite filter_candidate_keep by done. simpl List.filter.
  rewrite (sections_new _ _ _ _ Hd) by apply not_elem_of_nil.
  simpl. unfold renderSection, sectionHead, sectionFoot, fenceOpen, fenceClose.
  simpl. rewrite Hblock. by rewrite !app_assoc, ?app_nil_r.
Qed.

Lemma emits_flush (seen : list string) (l : locals) :
  tracks basePkg seen l →
  emits (flush fs genOpts l) tt (footOf fs genOpts seen)
    (closeCalls fs genOpts seen).
Proof.
  intros Ht. unfold flush. rewrite (tracks_open _ _ _ Ht). destruct Ht as [_ Hd].
  destruct seen as [|d seen]; simpl in *.
  - apply emits_ret.
  - rewrite Hd.
    eapply emits_eq;
      [eapply emits_bind; [apply emits_bufWrite | apply emits_bufWriteDoc]
      | done..].
Qed.

Lemma collectFile_open_calls (seen : list string) (l : locals)
    (filename dir text : string) :
  skipped filename = false → dirOf filename = Some dir →
  fs filename = Some text → dir ∉ seen → tracks basePkg seen l →
  ∃ l', emits (collectFile fs genOpts basePkg l filename) l'
          (footOf fs genOpts seen +:+ sectionHead fs genOpts basePkg dir
           +:+ fileBlock fs filename)
          (closeCalls fs genOpts seen
           ++ fragmentCalls fs genOpts partDocTplS (displayName dir)
           ++ [MustRead filename])
        ∧ tracks basePkg (dir :: seen) l'.
Proof.
  intros (H1 & H2 & H3)%candidate_inv Hd Hfs Hin Ht.
  pose proof (emits_flush _ _ Ht) as Hclose.
  destruct Ht as [Hk Hn].
  unfold collectFile. fold (dirOf filename). rewrite H1, H2, Hd, (H3 _ Hd).
  destruct (pkgFuncs l !! (basePkg +:+ "/" +:+ dir)) as [ss|] eqn:Hss.
  { exfalso. apply Hin.
    destruct (proj1 (Hk _) (mk_is_Some _ _ Hss)) as (d & Hd' & ->%pkgPath_inj).
    done. }
  eexists. split.
  - eapply emits_eq.
    + eapply emits_bind; [apply emits_setPkgName|].
      eapply emits_bind; [|by apply (emits_lines _ _ text)].
      eapply emits_bind; [apply Hclose|]. cbv zeta.
      eapply emits_bind; [apply emits_bufWrite|].
      eapply emits_bind; [apply emits_bufWrite|].
      eapply emits_bind; [apply emits_bufWriteDoc|].
      eapply emits_bind; [apply emits_bufWrite | apply emits_ret].
    + done.
    + unfold sectionHead, sectionTitle, fenceOpen, displayName, bufWritef.
      simpl. by rewrite !app_assoc, ?app_nil_r.
    + unfold displayName. cbn [app].
      by rewrite ?(right_id_L [] (++)), <- ?(assoc_L (++)).
  - split; [|done]. simpl. intros k.
    destruct (decide (k = basePkg +:+ "/" +:+ dir)) as [->|Hne].
    + rewrite lookup_insert_eq. split; [|eauto]. intros _.
      exists dir. split; [left | done].
    + rewrite lookup_insert_ne by done. rewrite Hk. split.
      * intros (d & Hd' & ->). exists d. split; [by right | done].
      * intros (d & [->|Hd']%elem_of_cons & ->); [done | eauto].
Qed.

Lemma callsFrom_eq (seen : list string) (ms : list string) :
  callsFrom fs genOpts seen ms
  = (MustRead <$> (sections seen (List.filter candidate ms)).1)
    ++ closeCalls fs genOpts seen
    ++ mjoin (sectionCalls fs genOpts
              <$> (sections seen (List.filter candidate ms)).2).
Proof. unfold callsFrom. by destruct (sections _ _). Qed.

(** The loop and the final flush, with the calls they make. *)
Lemma loop_calls (ms : list string) :
  ∀ seen l,
    Forall (λ f, loadable fs f = true) ms → tracks basePkg seen l →
    emits (forEach (collectFile fs genOpts basePkg) ms l ≫= flush fs genOpts)
      tt (outputFrom fs genOpts basePkg seen ms) (callsFrom fs genOpts seen ms).
Proof.
  induction ms as [|f ms IH]; intros seen l Hms Ht.
  - rewrite outputFrom_eq, callsFrom_eq. simpl. rewrite app_nil_r.
    rewrite (right_id_L [] (++)).
    eapply emits_ext; [|by apply emits_flush]. done.
  - apply Forall_cons in Hms as [Hf Hms].
    destruct (skipped f) eqn:Hskip.
    + rewrite outputFrom_eq, callsFrom_eq, filter_candidate_drop,
        <- outputFrom_eq, <- callsFrom_eq by done.
      eapply emits_ext; [intros w; symmetry; apply bind_assoc|].
      eapply emits_eq;
        [eapply emits_bind; [by apply collectFile_skipped | by apply IH] |..];
        done.
    + destruct (loadable_inv fs _ Hf Hskip) as (dir & text & Hd & Hfs).
      rewrite outputFrom_eq, callsFrom_eq, filter_candidate_keep by done.
      destruct (decide (dir ∈ seen)) as [Hin|Hin].
      * destruct (collectFile_continue fs genOpts basePkg _ _ _ _ _
                    Hskip Hd Hfs Hin Ht) as (l' & Hstep & Ht').
        eapply emits_ext; [intros w; symmetry; apply bind_assoc|].
        eapply emits_eq;
          [eapply emits_bind; [apply Hstep | by apply (IH seen l')] |..];
          try done.
        -- rewrite outputFrom_eq, (sections_seen _ _ _ _ Hd Hin). simpl.
           by rewrite !app_assoc.
        -- by rewrite callsFrom_eq, (sections_seen _ _ _ _ Hd Hin).
      * destruct (collectFile_open_calls _ _ _ _ _ Hskip Hd Hfs Hin Ht)
          as (l' & Hstep & Ht').
        eapply emits_ext; [intros w; symmetry; apply bind_assoc|].
        eapply emits_eq;
          [eapply emits_bind; [apply Hstep | by apply (IH (dir :: seen) l')] |..];
          try done.
        -- rewrite outputFrom_eq, (sections_new _ _ _ _ Hd Hin). simpl.
           unfold renderSection at 2. simpl.
           by rewrite !app_assoc.
        -- rewrite callsFrom_eq, (sections_new _ _ _ _ Hd Hin).
           unfold sectionCalls at 2. simpl.
           rewrite <- !(assoc_L (++)). do 2 f_equal. cbn [app]. f_equal.
           by rewrite <- !(assoc_L (++)).
Qed.

(** X24. The file-system calls of a run, in order.  On globbed paths the
    run can go through, the calls are those of the sections one after the
    other: for a section, the lookups of its start fragment, named after
    the display name of the package, then the reads of its files, then the
    lookups of its end fragment, named after the directory of the
    package. *)
Theorem calls_in_order (ms : list string) (w : world) :
  Forall (λ f, loadable fs f = true) ms →
  ∃ out w',
    collectPgkFunc fs genOpts ms basePkg w = (Done out, w')
    ∧ calls w' = calls w
                 ++ mjoin (sectionCalls fs genOpts
                           <$> (sections [] (List.filter candidate ms)).2).
Proof.
  intros Hms.
  assert (tracks basePkg [] {| name := ""; dirname := ""; pkgFuncs := ∅ |}) as Ht.
  { split; [|done]. intros k. simpl. rewrite lookup_empty. split.
    - by intros [? ?].
    - intros (d & Hd & _). by apply elem_of_nil in Hd. }
  pose proof (loop_calls ms [] _ Hms Ht) as Hc.
  set (w0 := {| buf := ""; pkgNames := pkgNames w; calls := calls w |}).
  destruct (emits_run _ _ _ _ w0 Hc) as (w' & E & Hb & Hcalls).
  exists (buf w'), w'. split.
  - unfold collectPgkFunc. rewrite run_bind.
    change (bufReset w) with (Done (), w0). cbv iota beta.
    by rewrite <- (bind_assoc _ (flush fs genOpts) (λ _, bufString)), run_bind, E.
  - by rewrite Hcalls, callsFrom_eq, sections_nil_run.
Qed.

End Sections.

Lemma one_section_per_package_witness :
  candidateDirs demoABBA = ["arrutil"; "arrutil"; "dump"; "dump"; "arrutil"]
  ∧ ((sections [] (List.filter candidate demoABBA)).2).*1 = ["arrutil"; "dump"]
  ∧ NoDup ((sections [] (List.filter candidate demoABBA)).2).*1.
Proof.
  destruct (one_section_per_package demoFs demoOpts "base" demoABBA demoWorld)
    as (_ & Hfirst & Hnodup & _).
  - apply Forall_forall. intros f Hf.
    repeat (apply elem_of_cons in Hf as [->|Hf]; [by vm_compute|]).
    by apply elem_of_nil in Hf.
  - split; [reflexivity|]. split; [|exact Hnodup].
    rewrite Hfirst. reflexivity.
Defined.

Lemma file_without_signatures_witness :
  ∃ w', collectPgkFunc (λ _, Some "package dump") demoOpts ["dump/doc.go"]
          "base" demoWorld
        = (Done (nl +:+ "### Dump" +:+ nl +:+ nl +:+ "> Package `base/dump`"
                 +:+ nl +:+ nl +:+ "package dump" +:+ nl
                 +:+ "```go" +:+ nl +:+ "```" +:+ nl
                 +:+ "package dump" +:+ nl), w').
Proof.
  destruct (file_without_signatures (λ _, Some "package dump") demoOpts "base"
              "dump/doc.go" "dump" "package dump" demoWorld)
    as (_ & w' & Hrun); [by vm_compute..|].
  exists w'. rewrite Hrun. by vm_compute.
Defined.

Lemma calls_in_order_witness :
  calls (collectPgkFunc demoFs demoOpts
           ["arrutil/check.go"; "arrutil/arrutil_test.go"] "base" demoWorld).2
  = [ReadExist "tpl/part-array/Slice-s.zh-CN.md";
     ReadExist "tpl/part-array/Slice-s.md";
     MustRead "arrutil/check.go";
     ReadExist "tpl/part-arrutil.zh-CN.md";
     ReadExist "tpl/part-arrutil.md"].
Proof.
  destruct (calls_in_order demoFs demoOpts "base"
              ["arrutil/check.go"; "arrutil/arrutil_test.go"] demoWorld)
    as (out & w' & Hrun & Hcalls).
  - apply Forall_forall. intros f Hf.
    repeat (apply elem_of_cons in Hf as [->|Hf]; [by vm_compute|]).
    by apply elem_of_nil in Hf.
  - rewrite Hrun. simpl snd. rewrite Hcalls. by vm_compute.
Defined.

End gendocSectionFacts.

(** ** The generator: the lines that are recorded *)

Module gendocLineFacts.
Import Str StrFacts strings stringsFacts regexp regexpFacts gendoc.
Import gendocSignatures gendocRun.

Lemma TrimRight_cons (c : ascii) (s cutset : string) :
  TrimRight (String c s) cutset
  = match TrimRight s cutset with
    | "" => if mem c cutset then "" else String c ""
    | t => String c t
    end.
Proof. reflexivity. Qed.

Lemma TrimRight_idem (s cutset : string) :
  TrimRight (TrimRight s cutset) cutset = TrimRight s cutset.
Proof.
  induction s as [|c s IH]; [done|]. rewrite TrimRight_cons.
  destruct (TrimRight s cutset) as [|d t] eqn:E.
  - destruct (mem c cutset) eqn:Hc; [done|].
    rewrite TrimRight_cons. simpl. by rewrite Hc.
  - rewrite TrimRight_cons, IH. done.
Qed.

(** What is before a byte that is not cut stays. *)
Lemma TrimRight_after (s t cutset : string) (c : ascii) :
  mem c cutset = false →
  TrimRight (s +:+ String c t) cutset = s +:+ String c (TrimRight t cutset).
Proof.
  intros Hc. induction s as [|b s IH].
  - change ("" +:+ String c t) with (String c t). rewrite TrimRight_cons.
    destruct (TrimRight t cutset); [by rewrite Hc | done].
  - rewrite !app_cons, TrimRight_cons, IH.
    by destruct s.
Qed.

Lemma all_TrimRight (p : ascii → bool) (s cutset : string) :
  all p s = true → all p (TrimRight s cutset) = true.
Proof.
  destruct (TrimRight_spec s cutset) as (junk & Hs & _).
  intros H. rewrite Hs, all_app in H. by apply andb_prop in H as [? _].
Qed.

Lemma signature_shape_TrimRight (m : string) :
  signature_shape m → signature_shape (TrimRight m "{ ").
Proof.
  intros (u & w & name & args & tail & -> & Hu & Hw & Hn & Ha & Ht).
  exists u, w, name, args, (TrimRight tail "{ ").
  split; [|repeat split; try done; by apply all_TrimRight].
  change ("func " +:+ String u (String w name) +:+ "(" +:+ args +:+ ")" +:+ tail)
    with ("func " +:+ String u (String w name) +:+ "(" +:+ args
          +:+ String ")" tail).
  rewrite <- !app_assoc. rewrite TrimRight_after by done.
  by rewrite !app_assoc.
Qed.

(** X25. The lines that are recorded are signatures again.  Every match,
    after its trailing braces and spaces are removed, is still a word of
    the pattern, with its name and its parenthesis whole; removing braces
    and spaces once more changes nothing; and extracting from a recorded
    line gives that line. *)
Theorem recorded_lines_are_signatures (text : string) :
  Forall (λ m, let r := TrimRight m "{ " in
               signature_shape r
               ∧ matches sigRe r
               ∧ TrimRight r "{ " = r
               ∧ FindAllString sigRe r = [r])
         (FindAllString sigRe text).
Proof.
  eapply Forall_impl;
    [exact (gendocExtraction.signature_lines_matches _ _ (FindAllString_spec text))|].
  intros m Hm. cbv zeta.
  assert (signature_shape (TrimRight m "{ ")) as Hshape.
  { by apply signature_shape_TrimRight, sigRe_matches. }
  assert (matches sigRe (TrimRight m "{ ")) as Hr by by apply sigRe_matches.
  split; [done|]. split; [done|]. split; [apply TrimRight_idem|].
  symmetry. apply FindAllString_iff.
  set (r := TrimRight m "{ ") in *.
  rewrite <- (app_nil_r r) at 1.
  change (r +:+ "") with ("" +:+ r +:+ "").
  apply sl_match; [done | done | |].
  - intros a b E Hb. by destruct a, b.
  - apply sl_none. intros a b E (w & s' & -> & Hw).
    destruct a; [|done]. destruct w; [|done].
    by apply sigRe_nonempty in Hw.
Qed.

End gendocLineFacts.

(** ** The generator: display names *)

Module gendocDisplayFacts.
Import Str StrFacts strings stringsFacts gendoc.

(** X26. The display name forgets the ending [util]: a directory [x] that
    does not end in [util] and the directory [xutil] have the same display
    name, the title that [nameMap] gives to [x], or [x] itself when it
    gives none.  So two packages can have the same heading and the same
    start fragment. *)
Theorem display_name_shared (x : string) :
  HasSuffix x "util" = false →
  displayName (x +:+ "util") = displayName x
  ∧ displayName x = default x (nameMap !! x).
Proof.
  intros Hx. unfold displayName.
  rewrite HasSuffix_app, Hx, length_app. simpl String.length.
  replace (String.length x + 4 - 4)%nat with (String.length x) by lia.
  by rewrite take_app_length.
Qed.

Lemma display_name_shared_witness :
  displayName "arrutil" = displayName "arr"
  ∧ displayName "arr" = "array/Slice".
Proof. apply (display_name_shared "arr"). reflexivity. Defined.

End gendocDisplayFacts.
